(** * SPEKE engine and SpekeSession: a shallow embedding

    The development follows the two translation units of the repository:
    [SPEKE.h] (the password-authenticated key-exchange engine) and
    [SpekeSession.cpp] (the session that drives the engine over a stream
    socket).  The engine's method bodies are not part of the sources at
    hand, only their declarations are; those bodies are modelled from the
    specification and marked as such.  The session is translated from
    [SpekeSession.cpp] statement by statement. *)

From Stdlib Require Import ZArith Zpow_facts List Bool Lia.
From Stdlib Require Import Strings.String Strings.Ascii Strings.Byte.
From stdpp Require Import base option gmap strings pretty.

Import ListNotations.
Local Open Scope Z_scope.

(** ** Bytes and big integers *)

(** [Bytes] of the sources is a vector of octets. *)
Definition Bytes : Type := list byte.

Definition byte_of_Z (z : Z) : byte :=
  match Byte.of_N (Z.to_N (z mod 256)) with
  | Some b => b
  | None => x00
  end.

Definition Z_of_byte (b : byte) : Z := Z.of_N (Byte.to_N b).

Fixpoint bytes_eqb (a b : Bytes) : bool :=
  match a, b with
  | [], [] => true
  | x :: a', y :: b' => Byte.eqb x y && bytes_eqb a' b'
  | _, _ => false
  end.

(** Base-256 digits of a non-negative integer, least significant first.
    The fuel bounds the number of digits. *)
Fixpoint le_digits (fuel : nat) (z : Z) : Bytes :=
  match fuel with
  | O => []
  | S fuel' =>
      if z <=? 0 then [] else byte_of_Z z :: le_digits fuel' (z / 256)
  end.

Fixpoint from_le_digits (l : Bytes) : Z :=
  match l with
  | [] => 0
  | b :: l' => Z_of_byte b + 256 * from_le_digits l'
  end.

(** Modelled from the spec: the big-integer library's serialisation,
    "big-endian minimal-length unsigned encoding" ([BigNum.h] is not among
    the sources). *)
Definition to_bytes (z : Z) : Bytes :=
  rev (le_digits (S (Z.to_nat (Z.log2 z))) z).

(** Modelled from the spec: the big-integer library's parser of a
    big-endian unsigned byte string. *)
Definition from_bytes (l : Bytes) : Z :=
  fold_left (fun acc b => 256 * acc + Z_of_byte b) l 0.

Definition str_to_bytes (s : string) : Bytes := list_byte_of_string s.

(** ** External primitives *)

(** The hash, HMAC and HKDF primitives and the cipher parameter table are
    external collaborators: the engine is generic in them. *)
Class Primitives := {
  HASH : Bytes -> Bytes;
  HKDF : Bytes -> nat -> Bytes;
  HMAC : Bytes -> Bytes -> Bytes;
  KEY_LEN : nat;
  NONCE_LEN : nat
}.

(** ** The engine, [class SPEKE] *)

(** The data members of [class SPEKE], under the names of [SPEKE.h]
    ([mdctx_], an OpenSSL scratch context, carries no information). *)
Record SPEKE := mkSPEKE {
  p_ : Z;
  q_ : Z;
  gen_ : Z;
  privkey_ : Z;
  pubkey_ : Z;
  id_ : string;
  id_numbered_ : string;
  remote_id_numbered_ : string;
  remote_pubkey_ : Z;
  encryption_key_ : Bytes;
  nonce_ : Bytes;
  key_confirmation_data_ : Bytes;
  initialized_ : bool
}.

(** The failures of the engine named by the specification. *)
Inductive SpekeError :=
| NotInitialized
| AlreadyInitialized
| PeerKeyInvalid.

(** Lexicographic minimum and maximum of two ids, [std::min] and
    [std::max] on [std::string]. *)
Definition string_min (a b : string) : string :=
  if String.ltb b a then b else a.

Definition string_max (a b : string) : string :=
  if String.ltb a b then b else a.

Section Engine.
Context `{Primitives}.

(** Modelled from the spec: [SPEKE::make_generator], "generator =
    (H(password) mod p)^2 mod p". *)
Definition make_generator (password : Bytes) (modulus : Z) : Z :=
  ((from_bytes (HASH password) mod modulus) ^ 2) mod modulus.

(** Modelled from the spec: the increment-and-fetch on the process-wide
    registry [SPEKE::id_counts] ("appending a hyphen and the next value of
    the process-wide counter keyed on id").  The mutex makes the
    increments atomic: they are modelled one after the other, the
    registry threaded through.  The specification places the increment in
    the constructor and records the policy as an open question; the class
    comment in [SPEKE.h] places it in [ProvideRemotePublicKeyIdPair]. *)
Definition next_id_count (id : string) (id_counts : gmap string nat)
  : nat * gmap string nat :=
  let n := S (default O (id_counts !! id)) in
  (n, <[id := n]> id_counts).

Definition number_id (id : string) (n : nat) : string :=
  id +:+ "-" +:+ pretty n.

(** Modelled from the spec: the constructor [SPEKE::SPEKE] (section 4.1,
    steps 1 to 5).  [entropy] is the output of the random source from
    which the private key is drawn in [1, q-1]; [id_counts] is the
    process-wide registry, threaded through.  [None] is a rejected
    construction, which leaves the registry as it was. *)
Definition SPEKE_new (id : string) (password : Bytes) (safe_prime : Z)
    (entropy : Z) (id_counts : gmap string nat)
  : option SPEKE * gmap string nat :=
  if negb ((0 <? safe_prime) && Z.odd safe_prime) then (None, id_counts)
  else
    let q := (safe_prime - 1) / 2 in
    let g := make_generator password safe_prime in
    if (g <=? 1) || (g =? safe_prime - 1) then (None, id_counts)
    else
      let priv := 1 + entropy mod (q - 1) in
      let pub := (g ^ priv) mod safe_prime in
      let '(n, id_counts') := next_id_count id id_counts in
      (Some {| p_ := safe_prime; q_ := q; gen_ := g;
               privkey_ := priv; pubkey_ := pub;
               id_ := id; id_numbered_ := number_id id n;
               remote_id_numbered_ := ""; remote_pubkey_ := 0;
               encryption_key_ := []; nonce_ := [];
               key_confirmation_data_ := [];
               initialized_ := false |},
       id_counts').

(** [SPEKE::GetId], as defined inline in [SPEKE.h]: it returns [id_]. *)
Definition GetId (e : SPEKE) : string := id_ e.

(** Modelled from the spec: [public_key()] "returns big-endian byte
    serialization of pubkey". *)
Definition GetPublicKey (e : SPEKE) : Bytes := to_bytes (pubkey_ e).

(** Modelled from the spec: [SPEKE::make_keying_material],
    KM = H(A || B || to_bytes X || to_bytes Y || to_bytes Z). *)
Definition make_keying_material (e : SPEKE) (peer_id : string)
    (peer_pubkey : Z) : Bytes :=
  HASH (str_to_bytes (string_min (id_numbered_ e) peer_id)
        ++ str_to_bytes (string_max (id_numbered_ e) peer_id)
        ++ to_bytes (Z.min (pubkey_ e) peer_pubkey)
        ++ to_bytes (Z.max (pubkey_ e) peer_pubkey)
        ++ to_bytes ((peer_pubkey ^ privkey_ e) mod p_ e)).

(** Modelled from the spec: [SPEKE::make_encryption_key], HKDF with empty
    salt and info; the first [KEY_LEN] bytes are the key, the next
    [NONCE_LEN] the nonce. *)
Definition make_encryption_key (keying_material : Bytes) : Bytes * Bytes :=
  let okm := HKDF keying_material (KEY_LEN + NONCE_LEN) in
  (firstn KEY_LEN okm, firstn NONCE_LEN (skipn KEY_LEN okm)).

(** Modelled from the spec: [SPEKE::gen_kcd], an HMAC under the
    encryption key. *)
Definition gen_kcd (encryption_key : Bytes) (first_id second_id : string)
    (first_pubkey second_pubkey : Z) : Bytes :=
  HMAC encryption_key
    (str_to_bytes first_id ++ str_to_bytes second_id
     ++ to_bytes first_pubkey ++ to_bytes second_pubkey).

(** The key-confirmation data this engine expects from its peer. *)
Definition kcd_remote (e : SPEKE) : Bytes :=
  gen_kcd (encryption_key_ e) (id_numbered_ e) (remote_id_numbered_ e)
    (pubkey_ e) (remote_pubkey_ e).

Definition valid_remote_pubkey (e : SPEKE) (v : Z) : bool :=
  (1 <? v) && (v <? p_ e - 1) && negb (v =? gen_ e).

(** Modelled from the spec: [SPEKE::ProvideRemotePublicKeyIdPair].  The
    method mutates the engine: the result is the failure, if any, and the
    engine after the call.  The specification counts a malformed remote
    id among the causes of [PeerKeyInvalid] without saying what makes an
    id malformed; no id is rejected here. *)
Definition ProvideRemotePublicKeyIdPair (remote_pubkey : Bytes)
    (remote_id : string) (e : SPEKE) : option SpekeError * SPEKE :=
  if initialized_ e then (Some AlreadyInitialized, e)
  else
    let v := from_bytes remote_pubkey in
    if negb (valid_remote_pubkey e v) then (Some PeerKeyInvalid, e)
    else
      let km := make_keying_material e remote_id v in
      let '(key, nonce) := make_encryption_key km in
      (None,
       {| p_ := p_ e; q_ := q_ e; gen_ := gen_ e;
          privkey_ := privkey_ e; pubkey_ := pubkey_ e;
          id_ := id_ e; id_numbered_ := id_numbered_ e;
          remote_id_numbered_ := remote_id; remote_pubkey_ := v;
          encryption_key_ := key; nonce_ := nonce;
          key_confirmation_data_ :=
            gen_kcd key remote_id (id_numbered_ e) v (pubkey_ e);
          initialized_ := true |}).

(** Modelled from the spec: [SPEKE::check_initialized] and the accessors
    guarded by it. *)
Definition check_initialized {A} (e : SPEKE) (a : A) : SpekeError + A :=
  if initialized_ e then inr a else inl NotInitialized.

Definition GetEncryptionKey (e : SPEKE) : SpekeError + Bytes :=
  check_initialized e (encryption_key_ e).

Definition GetNonce (e : SPEKE) : SpekeError + Bytes :=
  check_initialized e (nonce_ e).

Definition GetKeyConfirmationData (e : SPEKE) : SpekeError + Bytes :=
  check_initialized e (key_confirmation_data_ e).

Definition ConfirmKey (remote_kcd : Bytes) (e : SPEKE) : SpekeError + bool :=
  check_initialized e (bytes_eqb remote_kcd (kcd_remote e)).

Definition HmacSign (message : Bytes) (e : SPEKE) : SpekeError + Bytes :=
  check_initialized e (HMAC (encryption_key_ e) message).

Definition ConfirmHmacSignature (hmac_signature message : Bytes) (e : SPEKE)
  : SpekeError + bool :=
  check_initialized e
    (bytes_eqb hmac_signature (HMAC (encryption_key_ e) message)).

End Engine.

(** ** The session, [class SpekeSession] *)

(** Modelled from the spec: the enumeration [SpekeSessionState], declared
    in [SpekeSession.h], which is not among the sources; the enumerators
    are those [SpekeSession.cpp] uses. *)
Inductive SpekeSessionState :=
| IDLE
| RUNNING
| STOPPED
| STOPPED_ERROR
| STOPPED_PEER_DISCONNECTED
| STOPPED_PEER_PUBLIC_KEY_OR_ID_INVALID
| STOPPED_KEY_CONFIRMATION_FAILED
| STOPPED_PEER_BAD_BEHAVIOR.

Definition is_stopped (st : SpekeSessionState) : bool :=
  match st with
  | IDLE | RUNNING => false
  | _ => true
  end.

(** Modelled from the spec: the envelope [SpekeMessage] generated from the
    protocol-buffer schema ([SPEKE.pb.h] is not among the sources): a
    [oneof] over three variants, possibly with none of them set. *)
Inductive SpekeMessage :=
| NotSet
| InitData (id : string) (public_key : Bytes)
| KeyConfirmation (data : Bytes)
| SignedData (hmac_signature : Bytes) (data : Bytes).

Definition has_signed_data (m : SpekeMessage) : bool :=
  match m with SignedData _ _ => true | _ => false end.
Definition has_init_data (m : SpekeMessage) : bool :=
  match m with InitData _ _ => true | _ => false end.
Definition has_key_confirmation (m : SpekeMessage) : bool :=
  match m with KeyConfirmation _ => true | _ => false end.

(** The transport errors [asio::error::*] that a stream socket reports.
    The session singles out the first three. *)
Inductive error_code :=
| eof
| bad_descriptor
| broken_pipe
| connection_reset
| connection_aborted
| operation_aborted
| timed_out
| not_connected
| no_buffer_space
| network_down.

(** The [case] labels shared by [send_message] and [receive_message]. *)
Definition is_disconnect (ec : error_code) : bool :=
  match ec with
  | eof | bad_descriptor | broken_pipe => true
  | _ => false
  end.

(** The C++ exceptions that travel through the session.  [speke_error] is
    an exception thrown by the engine; [bad_state] is the
    [std::logic_error] of [Run] and [SendMessage]; [invalid_argument] is
    the [std::invalid_argument] of the two static transfer functions. *)
Inductive exception :=
| speke_error (e : SpekeError)
| bad_state
| invalid_argument
| system_error (ec : error_code).

(** What [catch (const std::logic_error&)] accepts.  Following the comments
    in [handle_read], the engine signals a repeated remote pair with a
    [std::logic_error] and an invalid peer key or id with a
    [std::runtime_error]; [std::invalid_argument] derives from
    [std::logic_error].  [NotInitialized] is counted as a logic error; no
    call that can raise it sits inside a [try] block whose outcome depends
    on this choice. *)
Definition is_logic_error (x : exception) : bool :=
  match x with
  | speke_error AlreadyInitialized | speke_error NotInitialized => true
  | bad_state | invalid_argument => true
  | _ => false
  end.

(** What [catch (const std::runtime_error&)] accepts; [asio::system_error]
    derives from [std::runtime_error]. *)
Definition is_runtime_error (x : exception) : bool :=
  match x with
  | speke_error PeerKeyInvalid | system_error _ => true
  | _ => false
  end.

(** Behaviour outside the C++ abstract machine's defined results: a null
    [speke_] dereferenced, or a failed [assert]. *)
Inductive fault :=
| NullDereference
| AssertionFailed.

Inductive result (A : Type) :=
| Returned (a : A)
| Thrown (x : exception)
| Crashed (f : fault).
Arguments Returned {A} a.
Arguments Thrown {A} x.
Arguments Crashed {A} f.

(** The application's message handler, seen through the public interface of
    the session it is handed: a tree of calls, each continuing with what
    the call gave back.  [HThrow] lets an exception leave the handler. *)
Inductive HandlerProg :=
| HDone
| HThrow (x : exception)
| HGetState (k : SpekeSessionState -> HandlerProg)
| HSendMessage (message : Bytes) (k : option exception -> HandlerProg)
| HClose (state : SpekeSessionState) (k : HandlerProg)
| HSetMessageHandler (handler : Bytes -> HandlerProg) (k : HandlerProg)
| HRun (handler : Bytes -> HandlerProg) (k : option exception -> HandlerProg).

Definition MessageHandler : Type := Bytes -> HandlerProg.

(** What a read from the socket yields: a transport error, or a body with
    the envelope [ParseFromArray] left behind and that call's return value
    (true when the body parsed). *)
Inductive received :=
| ReadFailed (ec : error_code)
| ReadBody (parsed : bool) (message : SpekeMessage).

(** The stream socket.  [write_results] scripts the outcome of the coming
    writes ([None] or an exhausted script is a success); [written] logs the
    frames handed to the transport; [read_waits] counts the calls of
    [async_wait]. *)
Record Socket := mkSocket {
  is_open : bool;
  write_results : list (option error_code);
  written : list SpekeMessage;
  read_waits : nat
}.

(** The data members of [SpekeSession].  Their declarations are in
    [SpekeSession.h], which is not among the sources: [closed_] starts
    false and [bad_behavior_count_] at zero, and the counter is a natural
    number here (the session closes as soon as it reaches the limit).
    [delivered] is an observation, not a member: the payloads the message
    handler has been called with. *)
Record SpekeSession := mkSession {
  socket_ : Socket;
  speke_ : option SPEKE;
  state_ : SpekeSessionState;
  closed_ : bool;
  bad_behavior_count_ : nat;
  message_handler_ : option MessageHandler;
  delivered : list Bytes
}.

Definition set_socket (f : Socket -> Socket) (s : SpekeSession) :=
  mkSession (f (socket_ s)) (speke_ s) (state_ s) (closed_ s)
    (bad_behavior_count_ s) (message_handler_ s) (delivered s).
Definition set_speke (e : option SPEKE) (s : SpekeSession) :=
  mkSession (socket_ s) e (state_ s) (closed_ s)
    (bad_behavior_count_ s) (message_handler_ s) (delivered s).
Definition set_state (st : SpekeSessionState) (s : SpekeSession) :=
  mkSession (socket_ s) (speke_ s) st (closed_ s)
    (bad_behavior_count_ s) (message_handler_ s) (delivered s).
Definition set_closed (b : bool) (s : SpekeSession) :=
  mkSession (socket_ s) (speke_ s) (state_ s) b
    (bad_behavior_count_ s) (message_handler_ s) (delivered s).
Definition set_bad_behavior_count (n : nat) (s : SpekeSession) :=
  mkSession (socket_ s) (speke_ s) (state_ s) (closed_ s)
    n (message_handler_ s) (delivered s).
Definition set_message_handler (h : option MessageHandler) (s : SpekeSession) :=
  mkSession (socket_ s) (speke_ s) (state_ s) (closed_ s)
    (bad_behavior_count_ s) h (delivered s).
Definition log_delivered (b : Bytes) (s : SpekeSession) :=
  mkSession (socket_ s) (speke_ s) (state_ s) (closed_ s)
    (bad_behavior_count_ s) (message_handler_ s) (delivered s ++ [b]).

(** *** A state and exception monad for the member functions *)

Definition M (A : Type) : Type := SpekeSession -> result A * SpekeSession.

Definition ret {A} (a : A) : M A := fun s => (Returned a, s).
Definition throw {A} (x : exception) : M A := fun s => (Thrown x, s).
Definition crash {A} (f : fault) : M A := fun s => (Crashed f, s).
Definition bind {A B} (m : M A) (k : A -> M B) : M B :=
  fun s =>
    match m s with
    | (Returned a, s') => k a s'
    | (Thrown x, s') => (Thrown x, s')
    | (Crashed f, s') => (Crashed f, s')
    end.
Definition get : M SpekeSession := fun s => (Returned s, s).
Definition modify (f : SpekeSession -> SpekeSession) : M unit :=
  fun s => (Returned tt, f s).

(** [try m catch h]: an exception [x] of [m] for which [h x] is a handler
    is handled by it; any other one propagates. *)
Definition try_catch {A} (m : M A) (h : exception -> option (M A)) : M A :=
  fun s =>
    match m s with
    | (Thrown x, s') =>
        match h x with
        | Some k => k s'
        | None => (Thrown x, s')
        end
    | r => r
    end.

Notation "'do' x <- m ; k" := (bind m (fun x => k))
  (at level 10, x name, m at level 100, k at level 200).
Notation "m ;; k" := (bind m (fun _ => k))
  (at level 100, k at level 200, right associativity).

(** [speke_->...]: dereferences the shared pointer. *)
Definition deref_speke : M SPEKE :=
  fun s =>
    match speke_ s with
    | Some e => (Returned e, s)
    | None => (Crashed NullDereference, s)
    end.

Definition lift_engine {A} (r : SpekeError + A) : M A :=
  match r with
  | inl err => throw (speke_error err)
  | inr a => ret a
  end.

Section Session.
Context `{Primitives}.

(** The constant [BAD_BEHAVIOR_LIMIT] is defined in [SpekeSession.h],
    which is not among the sources: the session is generic in it. *)
Variable BAD_BEHAVIOR_LIMIT : nat.

(** [SpekeSession::Close]. *)
Definition Close (state : SpekeSessionState) : M unit :=
  do s <- get;
  if negb (closed_ s) then
    modify (set_closed true) ;;
    (* shutdown (when open) and close: errors are dropped *)
    modify (set_socket (fun sk =>
      mkSocket false (write_results sk) (written sk) (read_waits sk))) ;;
    modify (set_speke None) ;;
    modify (set_state state)
  else
    ret tt.

(** [SpekeSession::start_reading] registers a wait; the completion calls
    [handle_read]. *)
Definition start_reading : M unit :=
  modify (set_socket (fun sk =>
    mkSocket (is_open sk) (write_results sk) (written sk)
      (S (read_waits sk)))).

(** The static [SpekeSession::SendMessage(message, socket)].  It starts
    the write with [asio::async_write], which returns at once and hands a
    failure to its completion handler: as the sources stand it does not
    throw [asio::system_error], and its runs are those whose next script
    entry is not [Some].  A [Some ec] entry is a transport whose write
    throws, the case the [catch] clause of [send_message] is written
    for. *)
Definition SendMessage_to_socket (message : SpekeMessage) : M unit :=
  do s <- get;
  if negb (is_open (socket_ s)) then throw invalid_argument
  else
    match write_results (socket_ s) with
    | Some ec :: rest =>
        modify (set_socket (fun sk =>
          mkSocket (is_open sk) rest (written sk) (read_waits sk))) ;;
        throw (system_error ec)
    | _ =>
        modify (set_socket (fun sk =>
          mkSocket (is_open sk) (tl (write_results sk))
            (written sk ++ [message]) (read_waits sk)))
    end.

(** The static [SpekeSession::ReceiveMessage(socket)].  The value
    [ParseFromArray] returns is dropped: the envelope is returned as the
    parser left it.  The buffer for the body, of the size the peer sent,
    is taken to be allocated: a [std::length_error] or [std::bad_alloc]
    from it is not among the outcomes of [received]. *)
Definition ReceiveMessage (rx : received) : M SpekeMessage :=
  do s <- get;
  if negb (is_open (socket_ s)) then throw invalid_argument
  else
    match rx with
    | ReadFailed ec => throw (system_error ec)
    | ReadBody _ message => ret message
    end.

(** The [catch (const asio::system_error&)] clause shared by
    [send_message] and [receive_message]. *)
Definition on_system_error {A} (a : A) (x : exception) : option (M A) :=
  match x with
  | system_error ec =>
      Some (if is_disconnect ec
            then Close STOPPED_PEER_DISCONNECTED ;; ret a
            else Close STOPPED_ERROR ;; ret a)
  | _ => None
  end.

(** [SpekeSession::send_message]. *)
Definition send_message (message : SpekeMessage) : M unit :=
  try_catch (SendMessage_to_socket message) (on_system_error tt).

(** [SpekeSession::receive_message]. *)
Definition receive_message (rx : received) : M (option SpekeMessage) :=
  try_catch (do m <- ReceiveMessage rx; ret (Some m)) (on_system_error None).

(** [SpekeSession::increase_bad_behavior_count]. *)
Definition increase_bad_behavior_count : M unit :=
  do s <- get;
  let n := S (bad_behavior_count_ s) in
  modify (set_bad_behavior_count n) ;;
  if (BAD_BEHAVIOR_LIMIT <=? n)%nat then Close STOPPED_PEER_BAD_BEHAVIOR
  else ret tt.

(** [SpekeSession::SetMessageHandler]. *)
Definition SetMessageHandler (handler : MessageHandler) : M unit :=
  modify (set_message_handler (Some handler)).

(** [SpekeSession::GetState]. *)
Definition GetState : M SpekeSessionState :=
  do s <- get; ret (state_ s).

(** [SpekeSession::send_key_confirmation]. *)
Definition send_key_confirmation : M unit :=
  do e <- deref_speke;
  do kcd <- lift_engine (GetKeyConfirmationData e);
  send_message (KeyConfirmation kcd).

(** [SpekeSession::SendMessage(const Bytes&)]. *)
Definition SendMessage (message : Bytes) : M unit :=
  do s <- get;
  match state_ s with
  | RUNNING =>
      do e <- deref_speke;
      do hmac <- lift_engine (HmacSign message e);
      send_message (SignedData hmac message)
  | _ => throw bad_state
  end.

(** [SpekeSession::Run], up to and including [send_message(message)]. *)
Definition Run_until_sent (handler : MessageHandler) : M unit :=
  do s <- get;
  match state_ s with
  | IDLE =>
      SetMessageHandler handler ;;
      do e <- deref_speke;
      let message := InitData (GetId e) (GetPublicKey e) in
      start_reading ;;
      send_message message
  | _ => throw bad_state
  end.

(** [SpekeSession::Run]: the above, then [state_ = RUNNING]. *)
Definition Run (handler : MessageHandler) : M unit :=
  Run_until_sent handler ;;
  modify (set_state RUNNING).

(** Runs the message handler's calls on the session. *)
Fixpoint run_handler (prog : HandlerProg) : M unit :=
  match prog with
  | HDone => ret tt
  | HThrow x => throw x
  | HGetState k => do st <- GetState; run_handler (k st)
  | HSendMessage message k =>
      do r <- try_catch (SendMessage message ;; ret None)
                (fun x => Some (ret (Some x)));
      run_handler (k r)
  | HClose state k => Close state ;; run_handler k
  | HSetMessageHandler handler k =>
      SetMessageHandler handler ;; run_handler k
  | HRun handler k =>
      do r <- try_catch (Run handler ;; ret None)
                (fun x => Some (ret (Some x)));
      run_handler (k r)
  end.

(** [SpekeSession::handle_message]. *)
Definition handle_message (message : Bytes) : M unit :=
  do s <- get;
  match message_handler_ s with
  | None => crash AssertionFailed
  | Some handler =>
      modify (log_delivered message) ;;
      run_handler (handler message)
  end.

(** The engine call of the [init_data] branch: the engine is updated in
    place, and its failure is thrown. *)
Definition provide_remote_pair (pubkey : Bytes) (id : string) : M unit :=
  do e <- deref_speke;
  let '(failure, e') := ProvideRemotePublicKeyIdPair pubkey id e in
  modify (set_speke (Some e')) ;;
  match failure with
  | Some err => throw (speke_error err)
  | None => ret tt
  end.

(** The dispatch on the variant in [handle_read].  The result tells whether
    control reaches the end of the chain ([true]) or left through one of
    the [return] statements ([false]). *)
Definition dispatch (message : SpekeMessage) : M bool :=
  if has_signed_data message then
    match message with
    | SignedData hmac data =>
        do e <- deref_speke;
        do valid <- lift_engine (ConfirmHmacSignature hmac data e);
        if valid then handle_message data ;; ret true
        else increase_bad_behavior_count ;; ret true
    | _ => ret true
    end
  else if has_init_data message then
    match message with
    | InitData id pubkey =>
        try_catch
          (provide_remote_pair pubkey id ;;
           send_key_confirmation ;;
           ret true)
          (fun x =>
             if is_logic_error x then Some (ret true)
             else if is_runtime_error x then
               Some (Close STOPPED_PEER_PUBLIC_KEY_OR_ID_INVALID ;; ret false)
             else None)
    | _ => ret true
    end
  else if has_key_confirmation message then
    match message with
    | KeyConfirmation kcd =>
        do e <- deref_speke;
        do confirmed <- lift_engine (ConfirmKey kcd e);
        if negb confirmed then
          Close STOPPED_KEY_CONFIRMATION_FAILED ;; ret false
        else ret true
    | _ => ret true
    end
  else ret true.

(** [SpekeSession::handle_read].  [ec] is the outcome of the wait; [rx] is
    what the socket yields if it is read. *)
Definition handle_read (ec : option error_code) (rx : received) : M unit :=
  match ec with
  | Some _ => Close STOPPED_ERROR
  | None =>
      do message <- receive_message rx;
      match message with
      | None => Close STOPPED_ERROR
      | Some message =>
          do proceed <- dispatch message;
          if proceed then start_reading else ret tt
      end
  end.

End Session.

(** [SpekeSession::SpekeSession]: the socket must be connected and the
    engine instantiated. *)
Definition SpekeSession_new (socket : Socket) (speke : option SPEKE)
  : result SpekeSession :=
  if negb (is_open socket) then Thrown invalid_argument
  else
    match speke with
    | None => Thrown invalid_argument
    | Some _ => Returned (mkSession socket speke IDLE false O None [])
    end.

(** ** Runs of calls *)

(** A run of [Close] calls, in order. *)
Fixpoint Close_all (reasons : list SpekeSessionState) : M unit :=
  match reasons with
  | [] => ret tt
  | reason :: rest => Close reason ;; Close_all rest
  end.

(** The arguments of one construction of an engine. *)
Record construction := mkConstruction {
  c_id : string;
  c_password : Bytes;
  c_safe_prime : Z;
  c_entropy : Z
}.

(** The outcomes of a run of [ProvideRemotePublicKeyIdPair] calls. *)
Fixpoint successes (rs : list (option SpekeError)) : nat :=
  match rs with
  | [] => O
  | None :: rs' => S (successes rs')
  | Some _ :: rs' => successes rs'
  end.

(** The entry points of a session: its public member functions and the
    completion of an awaited read. *)
Inductive operation :=
| OpClose (state : SpekeSessionState)
| OpHandleRead (ec : option error_code) (rx : received)
| OpSendMessage (message : Bytes)
| OpSetMessageHandler (handler : MessageHandler)
| OpRun (handler : MessageHandler).

Section Runs.
Context `{Primitives}.
Variable BAD_BEHAVIOR_LIMIT : nat.

Definition perform (op : operation) : M unit :=
  match op with
  | OpClose state => Close state
  | OpHandleRead ec rx => handle_read BAD_BEHAVIOR_LIMIT ec rx
  | OpSendMessage message => SendMessage message
  | OpSetMessageHandler handler => SetMessageHandler handler
  | OpRun handler => Run handler
  end.

(** The session after a run of operations, whatever each of them
    returned or threw. *)
Fixpoint perform_all (ops : list operation) (s : SpekeSession)
  : SpekeSession :=
  match ops with
  | [] => s
  | op :: rest => perform_all rest (snd (perform op s))
  end.

(** A run of [ProvideRemotePublicKeyIdPair] calls on one engine: the
    outcomes in order, and the engine afterwards. *)
Fixpoint provide_all (calls : list (Bytes * string)) (e : SPEKE)
  : list (option SpekeError) * SPEKE :=
  match calls with
  | [] => ([], e)
  | (pubkey, id) :: rest =>
      let '(r, e') := ProvideRemotePublicKeyIdPair pubkey id e in
      let '(rs, e'') := provide_all rest e' in
      (r :: rs, e'')
  end.

(** The registry after a run of constructions. *)
Fixpoint construct_all (cs : list construction) (reg : gmap string nat)
  : gmap string nat :=
  match cs with
  | [] => reg
  | c :: rest =>
      construct_all rest
        (snd (SPEKE_new (c_id c) (c_password c) (c_safe_prime c)
                (c_entropy c) reg))
  end.

(** A run of completed waits, each handled by [handle_read]; the run ends
    with the first call that does not return. *)
Fixpoint handle_reads (events : list (option error_code * received))
  : M unit :=
  match events with
  | [] => ret tt
  | (ec, rx) :: rest =>
      handle_read BAD_BEHAVIOR_LIMIT ec rx ;; handle_reads rest
  end.
End Runs.

(** ** Vocabulary of the statements *)

(** The session once [Close] has gone through. *)
Definition closed_with (state : SpekeSessionState) (s : SpekeSession)
  : SpekeSession :=
  mkSession
    (mkSocket false (write_results (socket_ s)) (written (socket_ s))
       (read_waits (socket_ s)))
    None state true (bad_behavior_count_ s) (message_handler_ s)
    (delivered s).

(** The session with one more read awaited. *)
Definition read_scheduled (s : SpekeSession) : SpekeSession :=
  set_socket (fun sk =>
    mkSocket (is_open sk) (write_results sk) (written sk) (S (read_waits sk)))
    s.

(** The session has gone through [Close]: the latch is set, the engine
    and the socket are released. *)
Definition released (s : SpekeSession) : Prop :=
  closed_ s = true /\ speke_ s = None /\ is_open (socket_ s) = false.

(** The terminal state a transport error is classified as. *)
Definition stopped_by (ec : error_code) : SpekeSessionState :=
  if is_disconnect ec then STOPPED_PEER_DISCONNECTED else STOPPED_ERROR.

(** [m] moves the session only along [R]. *)
Definition steps_within {A} (R : relation SpekeSession) (m : M A) : Prop :=
  forall s, R s (snd (m s)).

(** The bad-behaviour counter and the deliveries are as they were. *)
Definition tally_kept : relation SpekeSession :=
  fun s s' =>
    bad_behavior_count_ s' = bad_behavior_count_ s /\
    delivered s' = delivered s.

Definition count_grows : relation SpekeSession :=
  fun s s' => (bad_behavior_count_ s <= bad_behavior_count_ s')%nat.

(** ** A small concrete setting

    Toy primitives and the group of order 11 inside the units modulo the
    safe prime 23, on which the statements below are exercised. *)

Definition demo_primitives : Primitives :=
  {| HASH := fun b => b;
     HKDF := fun ikm n => firstn n (ikm ++ repeat x00 n);
     HMAC := fun key message => key ++ message;
     KEY_LEN := 2;
     NONCE_LEN := 1 |}.

Definition demo_password : Bytes := [x05].

(** Alice and Bob as constructed: generator 2, private keys 3 and 5. *)
Definition demo_alice : SPEKE :=
  {| p_ := 23; q_ := 11; gen_ := 2; privkey_ := 3; pubkey_ := 8;
     id_ := "alice"; id_numbered_ := "alice-1";
     remote_id_numbered_ := ""; remote_pubkey_ := 0;
     encryption_key_ := []; nonce_ := []; key_confirmation_data_ := [];
     initialized_ := false |}.

Definition demo_bob : SPEKE :=
  {| p_ := 23; q_ := 11; gen_ := 2; privkey_ := 5; pubkey_ := 9;
     id_ := "bob"; id_numbered_ := "bob-1";
     remote_id_numbered_ := ""; remote_pubkey_ := 0;
     encryption_key_ := []; nonce_ := []; key_confirmation_data_ := [];
     initialized_ := false |}.

(** A third engine built for the id "alice", after Bob's and another of
    Alice's. *)
Definition demo_alice_again : SPEKE :=
  {| p_ := 23; q_ := 11; gen_ := 2; privkey_ := 10; pubkey_ := 12;
     id_ := "alice"; id_numbered_ := "alice-3";
     remote_id_numbered_ := ""; remote_pubkey_ := 0;
     encryption_key_ := []; nonce_ := []; key_confirmation_data_ := [];
     initialized_ := false |}.

(** Alice and Bob once each has accepted the other's pair. *)
Definition demo_alice_ready : SPEKE :=
  snd (ProvideRemotePublicKeyIdPair (H := demo_primitives)
         [x09] "bob-1" demo_alice).

Definition demo_bob_ready : SPEKE :=
  snd (ProvideRemotePublicKeyIdPair (H := demo_primitives)
         [x08] "alice-1" demo_bob).

Definition demo_socket : Socket := mkSocket true [] [] O.

(** A handler that sends every payload back. *)
Definition demo_echo : MessageHandler :=
  fun payload => HSendMessage payload (fun _ => HDone).

Definition demo_idle (writes : list (option error_code)) : SpekeSession :=
  mkSession (mkSocket true writes [] O) (Some demo_alice) IDLE false O None [].

Definition demo_running (e : SPEKE) : SpekeSession :=
  mkSession demo_socket (Some e) RUNNING false O (Some demo_echo) [].

Definition demo_limit : nat := 3.

(** What is constructed between Alice's first engine and her third. *)
Definition demo_between : list construction :=
  [mkConstruction "bob" demo_password 23 4;
   mkConstruction "alice" demo_password 23 5].

Definition demo_registry : gmap string nat := <["alice" := 1%nat]> ∅.

(** ** More of [SpekeSession.cpp] *)

(** [SpekeSession::~SpekeSession]. *)
Definition SpekeSession_destroy : M unit := Close STOPPED.

(** *** The bytes of a frame

    The two static transfer functions put a [size_t] in front of the
    serialised envelope, copied as it lies in memory.  Its object
    representation is fixed by the platform, not by the sources: it is
    taken here as [size_width] bytes in either byte order. *)
Record size_repr := mkSizeRepr {
  size_width : nat;
  big_endian : bool
}.

(** The [w] low base-256 digits of [n], least significant first. *)
Fixpoint le_bytes (w : nat) (n : Z) : Bytes :=
  match w with
  | O => []
  | S w' => byte_of_Z n :: le_bytes w' (n / 256)
  end.

(** The object representation of the [size_t] value [n], and back. *)
Definition size_to_bytes (r : size_repr) (n : Z) : Bytes :=
  if big_endian r then rev (le_bytes (size_width r) n)
  else le_bytes (size_width r) n.

Definition size_of_bytes (r : size_repr) (l : Bytes) : Z :=
  from_le_digits (if big_endian r then rev l else l).

(** The buffer that the static [SendMessage] hands to [async_write]: the
    size of the serialised envelope, then the serialised envelope. *)
Definition frame_bytes (r : size_repr) (body : Bytes) : Bytes :=
  size_to_bytes r (Z.of_nat (length body)) ++ body.

(** The two [asio::read] calls of the static [ReceiveMessage], on the bytes
    that the stream still delivers: the size, then exactly that many bytes.
    The result is the body with the rest of the stream, or [None] when the
    stream ends first (the read throws end-of-stream). *)
Definition read_frame (r : size_repr) (stream : Bytes)
  : option (Bytes * Bytes) :=
  if (length stream <? size_width r)%nat then None
  else
    let size := Z.to_nat (size_of_bytes r (firstn (size_width r) stream)) in
    let rest := skipn (size_width r) stream in
    if (length rest <? size)%nat then None
    else Some (firstn size rest, skipn size rest).

(** One [ReceiveMessage] after the other, until the stream is used up or
    ends inside a frame: the bodies read, and whether the stream ended
    cleanly.  The fuel bounds the number of frames. *)
Fixpoint read_frames (fuel : nat) (r : size_repr) (stream : Bytes)
  : list Bytes * bool :=
  match fuel with
  | O => ([], false)
  | S fuel' =>
      match stream with
      | [] => ([], true)
      | _ =>
          match read_frame r stream with
          | None => ([], false)
          | Some (body, rest) =>
              let '(bodies, clean) := read_frames fuel' r rest in
              (body :: bodies, clean)
          end
      end
  end.

(** *** Vocabulary of the further statements *)

(** [P] is kept: a relation for [steps_within]. *)
Definition keeps (P : SpekeSession -> Prop) : relation SpekeSession :=
  fun s s' => P s -> P s'.

(** The latch, the socket and the engine agree, and a [STOPPED_*] state
    is the state of a closed session. *)
Definition well_formed (s : SpekeSession) : Prop :=
  closed_ s = negb (is_open (socket_ s)) /\
  (speke_ s = None <-> closed_ s = true) /\
  (is_stopped (state_ s) = true -> closed_ s = true).

(** The bad-behaviour counter is within the limit, and a session whose
    counter has reached the limit is closed. *)
Definition within_limit (limit : nat) (s : SpekeSession) : Prop :=
  (bad_behavior_count_ s <= Nat.max 1 limit)%nat /\
  ((0 < bad_behavior_count_ s)%nat ->
   (limit <= bad_behavior_count_ s)%nat -> closed_ s = true).

Definition session_invariant (limit : nat) (s : SpekeSession) : Prop :=
  well_formed s /\ within_limit limit s.

(** [Run] has had its turn: the state is past [IDLE], or the engine is
    gone. *)
Definition past_idle (s : SpekeSession) : Prop :=
  state_ s <> IDLE \/ speke_ s = None.

(** Nothing but the message handler differs. *)
Definition same_but_handler : relation SpekeSession :=
  fun s s' => s' = set_message_handler (message_handler_ s') s.

Definition delivered_kept : relation SpekeSession :=
  fun s s' => delivered s' = delivered s.

(** A big-endian, 8-byte [size_t], and a little-endian one. *)
Definition demo_size_be : size_repr := mkSizeRepr 8 true.
Definition demo_size_le : size_repr := mkSizeRepr 8 false.

(** The fields the invariants speak of are as they were. *)
Definition core_kept : relation SpekeSession :=
  fun s s' =>
    closed_ s' = closed_ s /\
    is_open (socket_ s') = is_open (socket_ s) /\
    speke_ s' = speke_ s /\
    state_ s' = state_ s /\
    bad_behavior_count_ s' = bad_behavior_count_ s.

(** A session from its constructor to the third bad signature:
    [Run], the peer's [InitData], then three frames signed wrongly. *)
Definition demo_bad_frame : operation :=
  OpHandleRead None (ReadBody true (SignedData [x00] [x01])).

Definition demo_life : list operation :=
  [OpRun demo_echo;
   OpHandleRead None (ReadBody true (InitData "bob-1" [x09]));
   demo_bad_frame; demo_bad_frame; demo_bad_frame].

Definition demo_fresh : SpekeSession :=
  mkSession demo_socket (Some demo_alice) IDLE false O None [].

(** [Run] can still go through: the session is idle with its engine. *)
Definition can_run (s : SpekeSession) : bool :=
  match state_ s, speke_ s with
  | IDLE, Some _ => true
  | _, _ => false
  end.

(** The reads awaited so far, and the one [Run] is still to await. *)
Definition reads_due (s : SpekeSession) : nat :=
  read_waits (socket_ s) + (if can_run s then 1 else 0).

(** The completed waits in a run of operations. *)
Fixpoint count_reads (ops : list operation) : nat :=
  match ops with
  | [] => O
  | OpHandleRead _ _ :: rest => S (count_reads rest)
  | _ :: rest => count_reads rest
  end.

(** No read is awaited over a step. *)
Definition waits_kept : relation SpekeSession :=
  fun s s' => read_waits (socket_ s') = read_waits (socket_ s).

(** The invariant is kept and no read is added to those due. *)
Definition calm (limit : nat) : relation SpekeSession :=
  fun s s' =>
    session_invariant limit s ->
    session_invariant limit s' /\ (reads_due s' <= reads_due s)%nat.

(** The invariant is kept and at most one read is added. *)
Definition one_more_read (limit : nat) : relation SpekeSession :=
  fun s s' =>
    session_invariant limit s ->
    session_invariant limit s' /\ (reads_due s' <= S (reads_due s))%nat.

(** * Properties *)

(** ** Bytes and big integers *)

Lemma Z_of_byte_of_Z (z : Z) : Z_of_byte (byte_of_Z z) = z mod 256.
Proof.
  unfold Z_of_byte, byte_of_Z.
  assert (Hr : 0 <= z mod 256 < 256) by (apply Z.mod_pos_bound; lia).
  destruct (Byte.of_N (Z.to_N (z mod 256))) as [b|] eqn:Hb.
  - apply Byte.to_of_N in Hb. rewrite Hb. lia.
  - apply Byte.of_N_None_iff in Hb. lia.
Qed.

Lemma from_le_digits_le_digits (fuel : nat) :
  forall z, 0 <= z < 2 ^ Z.of_nat fuel -> from_le_digits (le_digits fuel z) = z.
Proof.
  induction fuel as [|fuel IH]; intros z Hz.
  - simpl in *. lia.
  - cbn [le_digits]. destruct (Z.leb_spec z 0) as [Hle|Hgt].
    + simpl. lia.
    + cbn [from_le_digits]. rewrite Z_of_byte_of_Z, IH.
      * pose proof (Z.div_mod z 256). lia.
      * rewrite Nat2Z.inj_succ, Z.pow_succ_r in Hz by lia.
        split; [apply Z.div_pos; lia|].
        apply Z.div_lt_upper_bound; lia.
Qed.

Lemma from_bytes_snoc (l : Bytes) (b : byte) :
  from_bytes (l ++ [b]) = 256 * from_bytes l + Z_of_byte b.
Proof. unfold from_bytes. now rewrite fold_left_app. Qed.

Lemma from_bytes_rev (l : Bytes) : from_bytes (rev l) = from_le_digits l.
Proof.
  induction l as [|b l IH]; [reflexivity|].
  cbn [rev from_le_digits]. rewrite from_bytes_snoc, IH. lia.
Qed.

(** Parsing undoes serialisation. *)
Lemma from_bytes_to_bytes (z : Z) : 0 <= z -> from_bytes (to_bytes z) = z.
Proof.
  intros Hz. unfold to_bytes. rewrite from_bytes_rev.
  apply from_le_digits_le_digits. split; [assumption|].
  rewrite Nat2Z.inj_succ.
  destruct (Z.eq_dec z 0) as [->|Hne].
  - simpl. lia.
  - rewrite Z2Nat.id by apply Z.log2_nonneg.
    apply Z.log2_spec. lia.
Qed.

Lemma bytes_eqb_refl (a : Bytes) : bytes_eqb a a = true.
Proof.
  induction a as [|x a IH]; [reflexivity|].
  cbn [bytes_eqb]. rewrite IH, andb_true_r. now apply Byte.byte_dec_lb.
Qed.

Lemma bytes_eqb_eq (a b : Bytes) : bytes_eqb a b = true <-> a = b.
Proof.
  split; [|intros ->; apply bytes_eqb_refl].
  revert b. induction a as [|x a IH]; intros [|y b]; cbn [bytes_eqb]; try easy.
  intros [Hxy Hab]%andb_prop. apply Byte.byte_dec_bl in Hxy.
  f_equal; auto.
Qed.

(** ** Ordering of ids *)

Lemma string_ltb_antisym (a b : string) :
  String.ltb a b = true -> String.ltb b a = false.
Proof.
  unfold String.ltb. rewrite (String.compare_antisym a b).
  destruct (String.compare b a); simpl; congruence.
Qed.

Lemma string_ltb_total (a b : string) :
  String.ltb a b = false -> String.ltb b a = false -> a = b.
Proof.
  unfold String.ltb. rewrite (String.compare_antisym a b).
  destruct (String.compare b a) eqn:E; simpl; try congruence.
  intros _ _. apply String.compare_eq_iff in E. congruence.
Qed.

Lemma string_min_comm (a b : string) : string_min a b = string_min b a.
Proof.
  unfold string_min.
  destruct (String.ltb b a) eqn:Hba, (String.ltb a b) eqn:Hab; try reflexivity.
  - apply string_ltb_antisym in Hba. congruence.
  - symmetry. now apply string_ltb_total.
Qed.

Lemma string_max_comm (a b : string) : string_max a b = string_max b a.
Proof.
  unfold string_max.
  destruct (String.ltb b a) eqn:Hba, (String.ltb a b) eqn:Hab; try reflexivity.
  - apply string_ltb_antisym in Hba. congruence.
  - now apply string_ltb_total.
Qed.

(** Diffie-Hellman: each side raises the other's public key to its own
    private exponent, and both obtain the same residue. *)
Lemma shared_secret_comm (g a b p : Z) :
  0 < p -> 0 <= a -> 0 <= b ->
  ((g ^ b mod p) ^ a) mod p = ((g ^ a mod p) ^ b) mod p.
Proof.
  intros Hp Ha Hb.
  rewrite <- !Zpower_mod by assumption.
  rewrite <- !Z.pow_mul_r by assumption.
  now rewrite Z.mul_comm.
Qed.

(** ** The engine *)

Section EngineFacts.
Context `{Primitives}.

(** What a successful construction establishes. *)
Lemma SPEKE_new_Some id password p entropy reg e reg' :
  SPEKE_new id password p entropy reg = (Some e, reg') ->
  0 < p /\ p_ e = p /\ gen_ e = make_generator password p /\
  1 <= privkey_ e /\ pubkey_ e = (gen_ e ^ privkey_ e) mod p /\
  id_ e = id /\
  id_numbered_ e = number_id id (S (default O (reg !! id))) /\
  reg' = <[id := S (default O (reg !! id))]> reg /\
  initialized_ e = false.
Proof.
  unfold SPEKE_new, next_id_count.
  destruct (0 <? p) eqn:Hp; cbn [andb negb]; [|discriminate].
  destruct (Z.odd p) eqn:Hodd; cbn [negb]; [|discriminate].
  set (g := make_generator password p).
  destruct (g <=? 1) eqn:Hg1; cbn [orb]; [discriminate|].
  destruct (g =? p - 1) eqn:Hg2; [discriminate|].
  intros [= <- <-]. cbn.
  apply Z.ltb_lt in Hp. apply Z.leb_gt in Hg1. apply Z.eqb_neq in Hg2.
  assert (Hg : 0 <= g < p) by (apply Z.mod_pos_bound; lia).
  assert (Hp5 : 5 <= p).
  { rewrite Z.odd_spec in Hodd. destruct Hodd as [k ->]. lia. }
  assert (Hq : 0 < (p - 1) / 2 - 1).
  { pose proof (Z.div_mod (p - 1) 2) as Hdm.
    pose proof (Z.mod_pos_bound (p - 1) 2). lia. }
  pose proof (Z.mod_pos_bound entropy ((p - 1) / 2 - 1) Hq).
  repeat split; try reflexivity; lia.
Qed.

(** What an accepted remote pair establishes. *)
Lemma Provide_accepted pk id e e' :
  ProvideRemotePublicKeyIdPair pk id e = (None, e') ->
  initialized_ e = false /\
  valid_remote_pubkey e (from_bytes pk) = true /\
  e' = {| p_ := p_ e; q_ := q_ e; gen_ := gen_ e;
          privkey_ := privkey_ e; pubkey_ := pubkey_ e;
          id_ := id_ e; id_numbered_ := id_numbered_ e;
          remote_id_numbered_ := id; remote_pubkey_ := from_bytes pk;
          encryption_key_ :=
            fst (make_encryption_key
                   (make_keying_material e id (from_bytes pk)));
          nonce_ :=
            snd (make_encryption_key
                   (make_keying_material e id (from_bytes pk)));
          key_confirmation_data_ :=
            gen_kcd
              (fst (make_encryption_key
                      (make_keying_material e id (from_bytes pk))))
              id (id_numbered_ e) (from_bytes pk) (pubkey_ e);
          initialized_ := true |}.
Proof.
  unfold ProvideRemotePublicKeyIdPair.
  destruct (initialized_ e); [discriminate|].
  destruct (valid_remote_pubkey e (from_bytes pk)); cbn [negb];
    [|discriminate].
  unfold make_encryption_key. intros [= <-]. auto.
Qed.

Lemma Provide_initialized pk id e :
  initialized_ e = true ->
  ProvideRemotePublicKeyIdPair pk id e = (Some AlreadyInitialized, e).
Proof. intros Hi. unfold ProvideRemotePublicKeyIdPair. now rewrite Hi. Qed.

Lemma Provide_result_initialized pk id e e' :
  ProvideRemotePublicKeyIdPair pk id e = (None, e') -> initialized_ e' = true.
Proof. intros (_ & _ & ->)%Provide_accepted. reflexivity. Qed.

(** Both peers hash the same keying material. *)
Lemma keying_material_symmetric (A B : SPEKE) :
  p_ A = p_ B -> gen_ A = gen_ B -> 0 < p_ A ->
  0 <= privkey_ A -> 0 <= privkey_ B ->
  pubkey_ A = (gen_ A ^ privkey_ A) mod p_ A ->
  pubkey_ B = (gen_ B ^ privkey_ B) mod p_ B ->
  make_keying_material A (id_numbered_ B) (pubkey_ B)
  = make_keying_material B (id_numbered_ A) (pubkey_ A).
Proof.
  intros Hp Hg Hpos Ha Hb HA HB. unfold make_keying_material.
  rewrite (string_min_comm (id_numbered_ A)),
          (string_max_comm (id_numbered_ A)),
          (Z.min_comm (pubkey_ A)), (Z.max_comm (pubkey_ A)).
  do 6 f_equal.
  rewrite HA, HB, <- Hp, <- Hg.
  now apply shared_secret_comm.
Qed.

(** C1. Symmetry of derived material: two engines built from the same
    password and safe prime, each of which accepts the other's public key
    and numbered id, hold the same encryption key and the same nonce, and
    the key-confirmation data of each is what the other expects from its
    peer, so that each confirms the other's. *)
Theorem symmetry_of_derived_material
    (password : Bytes) (p : Z) (id_A id_B : string) (entropy_A entropy_B : Z)
    (reg_A reg_B reg_A' reg_B' : gmap string nat) (A B A' B' : SPEKE) :
  SPEKE_new id_A password p entropy_A reg_A = (Some A, reg_A') ->
  SPEKE_new id_B password p entropy_B reg_B = (Some B, reg_B') ->
  ProvideRemotePublicKeyIdPair (GetPublicKey B) (id_numbered_ B) A
    = (None, A') ->
  ProvideRemotePublicKeyIdPair (GetPublicKey A) (id_numbered_ A) B
    = (None, B') ->
  encryption_key_ A' = encryption_key_ B' /\
  nonce_ A' = nonce_ B' /\
  key_confirmation_data_ A' = kcd_remote B' /\
  key_confirmation_data_ B' = kcd_remote A' /\
  ConfirmKey (key_confirmation_data_ A') B' = inr true /\
  ConfirmKey (key_confirmation_data_ B') A' = inr true.
Proof.
  intros HA HB HA' HB'.
  apply SPEKE_new_Some in HA
    as (Hp & HpA & HgA & HprivA & HpubA & _ & _ & _ & _).
  apply SPEKE_new_Some in HB
    as (_ & HpB & HgB & HprivB & HpubB & _ & _ & _ & _).
  apply Provide_accepted in HA' as (_ & _ & ->).
  apply Provide_accepted in HB' as (_ & _ & ->).
  assert (HnnA : 0 <= pubkey_ A).
  { rewrite HpubA. apply Z.mod_pos_bound. assumption. }
  assert (HnnB : 0 <= pubkey_ B).
  { rewrite HpubB. apply Z.mod_pos_bound. assumption. }
  unfold GetPublicKey. rewrite !from_bytes_to_bytes by assumption.
  assert (Hkm : make_keying_material A (id_numbered_ B) (pubkey_ B)
                = make_keying_material B (id_numbered_ A) (pubkey_ A)).
  { apply keying_material_symmetric; try lia; congruence. }
  unfold ConfirmKey, check_initialized, kcd_remote. cbn.
  rewrite Hkm, !bytes_eqb_refl. auto 10.
Qed.

Lemma provide_all_initialized calls e :
  initialized_ e = true ->
  provide_all calls e = (map (fun _ => Some AlreadyInitialized) calls, e).
Proof.
  intros Hi. induction calls as [|[pk id] calls IH]; [reflexivity|].
  cbn [provide_all map]. now rewrite Provide_initialized, IH.
Qed.

Lemma successes_all_failed (calls : list (Bytes * string)) :
  successes (map (fun _ => Some AlreadyInitialized) calls) = O.
Proof. induction calls; [reflexivity|assumption]. Qed.

Lemma provide_all_successes calls e :
  (successes (fst (provide_all calls e)) <= 1)%nat.
Proof.
  revert e. induction calls as [|[pk id] calls IH]; intros e.
  - cbn. lia.
  - cbn [provide_all].
    destruct (ProvideRemotePublicKeyIdPair pk id e) as [[err|] e'] eqn:Hp.
    + specialize (IH e'). destruct (provide_all calls e') as [rs e''].
      exact IH.
    + apply Provide_result_initialized in Hp.
      rewrite (provide_all_initialized calls e' Hp).
      cbn. rewrite successes_all_failed. lia.
Qed.

(** C8. Once-only initialization: after a call of
    [ProvideRemotePublicKeyIdPair] has succeeded, every further call fails
    with [AlreadyInitialized] and leaves the engine, hence the encryption
    key, the nonce, the key-confirmation data, the remote id and the
    remote public key, as the first call computed them; and in any run of
    calls at most one succeeds. *)
Theorem once_only_initialization
    (pubkey : Bytes) (id : string) (e e1 : SPEKE) :
  ProvideRemotePublicKeyIdPair pubkey id e = (None, e1) ->
  (forall pubkey' id',
      ProvideRemotePublicKeyIdPair pubkey' id' e1
      = (Some AlreadyInitialized, e1)) /\
  (forall calls,
      provide_all calls e1
      = (map (fun _ => Some AlreadyInitialized) calls, e1)) /\
  (forall calls,
      (successes (fst (provide_all ((pubkey, id) :: calls) e)) <= 1)%nat).
Proof.
  intros Hp. pose proof (Provide_result_initialized _ _ _ _ Hp) as Hi.
  split; [|split].
  - intros pubkey' id'. now apply Provide_initialized.
  - intros calls. now apply provide_all_initialized.
  - intros calls. apply provide_all_successes.
Qed.

(** The registry's count for an id never decreases. *)
Lemma SPEKE_new_count_mono id' password p entropy reg id :
  (default O (reg !! id)
   <= default O (snd (SPEKE_new id' password p entropy reg) !! id))%nat.
Proof.
  unfold SPEKE_new, next_id_count.
  destruct (negb _); [cbn; lia|].
  destruct (_ || _); [cbn; lia|]. cbn [snd].
  destruct (decide (id' = id)) as [->|Hne].
  - rewrite lookup_insert_eq. cbn. lia.
  - rewrite lookup_insert_ne by assumption. lia.
Qed.

Lemma construct_all_count_mono cs reg id :
  (default O (reg !! id) <= default O (construct_all cs reg !! id))%nat.
Proof.
  revert reg. induction cs as [|c cs IH]; intros reg; [cbn; lia|].
  cbn [construct_all]. etransitivity; [|apply IH].
  apply SPEKE_new_count_mono.
Qed.

Lemma number_id_inj id n m : number_id id n = number_id id m -> n = m.
Proof.
  unfold number_id. intros Heq.
  apply (inj (String.app id)) in Heq.
  apply (inj (String.app "-")) in Heq.
  now apply (inj pretty) in Heq.
Qed.

(** C9. At construction the engine's numbered id is the given id, a
    hyphen, and the next value of the registry's counter for that id,
    which the registry then holds; so two engines constructed with the
    same id, whatever is constructed in between, have distinct numbered
    ids. *)
Theorem id_numbered_distinct
    (id : string) (password1 password2 : Bytes) (p1 p2 entropy1 entropy2 : Z)
    (reg reg1 reg2 : gmap string nat) (between : list construction)
    (e1 e2 : SPEKE) :
  SPEKE_new id password1 p1 entropy1 reg = (Some e1, reg1) ->
  SPEKE_new id password2 p2 entropy2 (construct_all between reg1)
    = (Some e2, reg2) ->
  id_numbered_ e1 = id +:+ "-" +:+ pretty (S (default O (reg !! id))) /\
  reg1 !! id = Some (S (default O (reg !! id))) /\
  id_numbered_ e1 <> id_numbered_ e2.
Proof.
  intros H1 H2.
  apply SPEKE_new_Some in H1 as (_ & _ & _ & _ & _ & _ & Hn1 & Hr1 & _).
  apply SPEKE_new_Some in H2 as (_ & _ & _ & _ & _ & _ & Hn2 & _ & _).
  assert (Hlook : reg1 !! id = Some (S (default O (reg !! id)))).
  { rewrite Hr1. apply lookup_insert_eq. }
  split; [exact Hn1|]. split; [exact Hlook|].
  rewrite Hn1, Hn2. intros Heq%number_id_inj.
  pose proof (construct_all_count_mono between reg1 id) as Hmono.
  rewrite Hlook in Hmono. cbn in Hmono. lia.
Qed.

End EngineFacts.

(** ** The session *)

Ltac monad_unfold :=
  unfold bind, get, modify, ret, throw, crash, try_catch, deref_speke,
    lift_engine in *.

(** Reduces the accessors on sessions whose fields are known. *)
Ltac session_simpl :=
  unfold set_socket, set_speke, set_state, set_closed,
    set_bad_behavior_count, set_message_handler, log_delivered,
    read_scheduled, closed_with in *;
  cbn [socket_ speke_ state_ closed_ bad_behavior_count_ message_handler_
       delivered is_open write_results written read_waits fst snd negb] in *.

Lemma Close_not_closed state s :
  closed_ s = false -> Close state s = (Returned tt, closed_with state s).
Proof. intros Hc. unfold Close. monad_unfold. now rewrite Hc. Qed.

Lemma Close_closed state s :
  closed_ s = true -> Close state s = (Returned tt, s).
Proof. intros Hc. unfold Close. monad_unfold. now rewrite Hc. Qed.

Lemma Close_then_ret {A} state (a : A) s :
  (Close state ;; ret a) s = (Returned a, snd (Close state s)).
Proof.
  unfold bind, ret. destruct (closed_ s) eqn:Hc;
    now rewrite ?Close_closed, ?Close_not_closed by assumption.
Qed.

Lemma Close_all_closed reasons s :
  closed_ s = true -> Close_all reasons s = (Returned tt, s).
Proof.
  intros Hc. induction reasons as [|r reasons IH]; [reflexivity|].
  cbn [Close_all]. unfold bind. now rewrite Close_closed.
Qed.

(** *** Relations kept by the member functions *)

#[local] Instance tally_kept_preorder : PreOrder tally_kept.
Proof.
  split.
  - intros s. split; reflexivity.
  - intros s1 s2 s3 [H1 H2] [H3 H4]. split; congruence.
Qed.

#[local] Instance count_grows_preorder : PreOrder count_grows.
Proof.
  split.
  - intros s. unfold count_grows. lia.
  - intros s1 s2 s3. unfold count_grows. lia.
Qed.

Lemma tally_kept_count_grows s s' : tally_kept s s' -> count_grows s s'.
Proof. intros [Hc _]. unfold count_grows. lia. Qed.

Lemma tally_kept_grows {A} (m : M A) :
  steps_within tally_kept m -> steps_within count_grows m.
Proof. intros Hm s. apply tally_kept_count_grows, Hm. Qed.

Section Within.
Context (R : relation SpekeSession) `{!PreOrder R}.

Lemma within_ret {A} (a : A) : steps_within R (ret a).
Proof. intros s. reflexivity. Qed.

Lemma within_throw {A} x : steps_within R (@throw A x).
Proof. intros s. reflexivity. Qed.

Lemma within_crash {A} f : steps_within R (@crash A f).
Proof. intros s. reflexivity. Qed.

Lemma within_get : steps_within R get.
Proof. intros s. reflexivity. Qed.

Lemma within_deref_speke : steps_within R deref_speke.
Proof. intros s. unfold deref_speke. destruct (speke_ s); reflexivity. Qed.

Lemma within_lift_engine {A} (r : SpekeError + A) :
  steps_within R (lift_engine r).
Proof. destruct r as [err|a]; intros s; reflexivity. Qed.

Lemma within_bind {A B} (m : M A) (k : A -> M B) :
  steps_within R m -> (forall a, steps_within R (k a)) ->
  steps_within R (bind m k).
Proof.
  intros Hm Hk s. unfold bind. specialize (Hm s).
  destruct (m s) as [[a|x|f] s']; cbn [snd] in *; try assumption.
  etransitivity; [exact Hm|apply Hk].
Qed.

Lemma within_try_catch {A} (m : M A) (h : exception -> option (M A)) :
  steps_within R m ->
  (forall x k, h x = Some k -> steps_within R k) ->
  steps_within R (try_catch m h).
Proof.
  intros Hm Hh s. unfold try_catch. specialize (Hm s).
  destruct (m s) as [[a|x|f] s']; cbn [snd] in *; try assumption.
  destruct (h x) as [k|] eqn:Hx; [|assumption].
  etransitivity; [exact Hm|eapply Hh, Hx].
Qed.
End Within.

Create HintDb within.

(** Composes the lemmas above along the structure of a member function;
    the leaves are closed with the facts in the [within] database. *)
Ltac within :=
  repeat (intros; cbv beta;
          first [ solve [auto with within]
                | apply within_ret | apply within_throw | apply within_crash
                | apply within_get | apply within_deref_speke
                | apply within_lift_engine | apply within_bind
                | typeclasses eauto
                | match goal with
                  | |- steps_within _ (match ?x with _ => _ end) => destruct x
                  end ]).

Section SessionFacts.
Context `{Primitives}.
Variable BAD_BEHAVIOR_LIMIT : nat.

Lemma Close_keeps_tally state : steps_within tally_kept (Close state).
Proof.
  intros s. destruct (closed_ s) eqn:Hc.
  - rewrite Close_closed by assumption. reflexivity.
  - rewrite Close_not_closed by assumption. split; reflexivity.
Qed.

Lemma start_reading_keeps_tally : steps_within tally_kept start_reading.
Proof. intros s. split; reflexivity. Qed.

Lemma SetMessageHandler_keeps_tally handler :
  steps_within tally_kept (SetMessageHandler handler).
Proof. intros s. split; reflexivity. Qed.

#[local] Hint Resolve Close_keeps_tally start_reading_keeps_tally
  SetMessageHandler_keeps_tally tally_kept_grows : within.

Lemma on_system_error_keeps_tally {A} (a : A) x k :
  on_system_error a x = Some k -> steps_within tally_kept k.
Proof.
  destruct x as [| | |ec]; try discriminate.
  cbn. intros [= <-]. destruct (is_disconnect ec); within.
Qed.

Lemma send_message_keeps_tally message :
  steps_within tally_kept (send_message message).
Proof.
  unfold send_message.
  apply within_try_catch;
    [typeclasses eauto| |apply on_system_error_keeps_tally].
  intros s. unfold SendMessage_to_socket. monad_unfold.
  destruct (is_open (socket_ s)); cbn [negb]; [|reflexivity].
  destruct (write_results (socket_ s)) as [|[ec|] rest];
    split; reflexivity.
Qed.

#[local] Hint Resolve send_message_keeps_tally : within.

Lemma SendMessage_keeps_tally message :
  steps_within tally_kept (SendMessage message).
Proof. unfold SendMessage. within. Qed.

Lemma Run_keeps_tally handler : steps_within tally_kept (Run handler).
Proof. unfold Run, Run_until_sent. within. Qed.

#[local] Hint Resolve SendMessage_keeps_tally Run_keeps_tally : within.

Lemma caught_keeps_tally {A} (m : M A) :
  steps_within tally_kept m ->
  steps_within tally_kept
    (try_catch (m ;; ret None) (fun x => Some (ret (Some x)))).
Proof.
  intros Hm. apply within_try_catch; [typeclasses eauto|within|].
  intros x k [= <-]. within.
Qed.

(** Whatever the handler does through the session's interface, it leaves
    the bad-behaviour counter and the record of deliveries alone. *)
Lemma run_handler_keeps_tally prog :
  steps_within tally_kept (run_handler prog).
Proof.
  induction prog as [|x|k IH|message k IH|state k IH|handler _ k IH
                     |handler _ k IH]; cbn [run_handler]; unfold GetState;
    within; apply caught_keeps_tally; within.
Qed.

Lemma receive_message_keeps_tally rx :
  steps_within tally_kept (receive_message rx).
Proof.
  unfold receive_message.
  apply within_try_catch;
    [typeclasses eauto| |apply on_system_error_keeps_tally].
  unfold ReceiveMessage. within.
Qed.

#[local] Hint Resolve run_handler_keeps_tally receive_message_keeps_tally
  : within.

Lemma handle_message_count_grows data :
  steps_within count_grows (handle_message data).
Proof.
  unfold handle_message. within.
  intros s. unfold count_grows. cbn. lia.
Qed.

Lemma increase_bad_behavior_count_grows :
  steps_within count_grows (increase_bad_behavior_count BAD_BEHAVIOR_LIMIT).
Proof.
  intros s. unfold increase_bad_behavior_count. monad_unfold. cbn.
  destruct (BAD_BEHAVIOR_LIMIT <=? S (bad_behavior_count_ s))%nat.
  - etransitivity; [|apply tally_kept_count_grows, Close_keeps_tally].
    unfold count_grows. cbn. lia.
  - unfold count_grows. cbn. lia.
Qed.

Lemma provide_remote_pair_keeps_tally pubkey id :
  steps_within tally_kept (provide_remote_pair pubkey id).
Proof. unfold provide_remote_pair. within. Qed.

Lemma send_key_confirmation_keeps_tally :
  steps_within tally_kept send_key_confirmation.
Proof. unfold send_key_confirmation. within. Qed.

#[local] Hint Resolve handle_message_count_grows
  increase_bad_behavior_count_grows provide_remote_pair_keeps_tally
  send_key_confirmation_keeps_tally : within.

Lemma dispatch_count_grows message :
  steps_within count_grows (dispatch BAD_BEHAVIOR_LIMIT message).
Proof.
  unfold dispatch. destruct message as [|id pubkey|kcd|hmac data]; cbn.
  - within.
  - apply tally_kept_grows, within_try_catch; [typeclasses eauto|within|].
    intros x k. destruct (is_logic_error x); [intros [= <-]; within|].
    destruct (is_runtime_error x); [intros [= <-]; within|discriminate].
  - within.
  - within.
Qed.

Lemma handle_read_count_grows ec rx :
  steps_within count_grows (handle_read BAD_BEHAVIOR_LIMIT ec rx).
Proof.
  unfold handle_read. destruct ec as [ec|]; [within|].
  pose proof dispatch_count_grows. within.
Qed.

(** Over any run of reads the bad-behaviour counter never goes down. *)
Lemma handle_reads_count_grows events :
  steps_within count_grows (handle_reads BAD_BEHAVIOR_LIMIT events).
Proof.
  induction events as [|[ec rx] events IH]; cbn [handle_reads].
  - within.
  - pose proof handle_read_count_grows. within.
Qed.

(** *** One call of [handle_read] *)

Lemma receive_message_body parsed message s :
  is_open (socket_ s) = true ->
  receive_message (ReadBody parsed message) s = (Returned (Some message), s).
Proof.
  intros Ho. unfold receive_message, ReceiveMessage. monad_unfold.
  now rewrite Ho.
Qed.

Lemma receive_message_failed ec s :
  is_open (socket_ s) = true ->
  receive_message (ReadFailed ec) s
  = (Returned None, snd (Close (stopped_by ec) s)).
Proof.
  intros Ho. unfold receive_message, ReceiveMessage, stopped_by.
  unfold try_catch, bind at 1 2, get, throw. rewrite Ho.
  cbn [negb on_system_error].
  destruct (is_disconnect ec); apply Close_then_ret.
Qed.

Lemma handle_read_body parsed message s :
  is_open (socket_ s) = true ->
  handle_read BAD_BEHAVIOR_LIMIT None (ReadBody parsed message) s
  = (do proceed <- dispatch BAD_BEHAVIOR_LIMIT message;
     if proceed then start_reading else ret tt) s.
Proof.
  intros Ho. unfold handle_read. unfold bind at 1.
  now rewrite receive_message_body.
Qed.

Lemma send_message_open message s :
  is_open (socket_ s) = true ->
  fst (send_message message s) = Returned tt.
Proof.
  intros Ho. unfold send_message, SendMessage_to_socket. monad_unfold.
  rewrite Ho. cbn.
  destruct (write_results (socket_ s)) as [|[ec|] rest]; cbn;
    try reflexivity.
  destruct (is_disconnect ec); now rewrite Close_then_ret.
Qed.

Lemma send_message_written message s :
  is_open (socket_ s) = true ->
  hd None (write_results (socket_ s)) = None ->
  send_message message s
  = (Returned tt,
     set_socket (fun sk =>
       mkSocket (is_open sk) (tl (write_results sk))
         (written sk ++ [message]) (read_waits sk)) s).
Proof.
  intros Ho Hw. unfold send_message, SendMessage_to_socket. monad_unfold.
  rewrite Ho. cbn.
  destruct (write_results (socket_ s)) as [|[ec|] rest]; cbn in *;
    try reflexivity; discriminate.
Qed.

(** C2. The frame dispatcher lets an engine error escape: when a
    [SignedData] or a [KeyConfirmation] frame arrives before the engine
    has accepted a remote pair, [handle_read] throws the engine's
    [NotInitialized] to its caller and leaves the session as it was, in
    no terminal state.  (The claim says such failures are absorbed.) *)
Theorem engine_error_escapes_handle_read
    (s : SpekeSession) (e : SPEKE) (parsed : bool) (hmac data kcd : Bytes) :
  is_open (socket_ s) = true ->
  speke_ s = Some e ->
  initialized_ e = false ->
  handle_read BAD_BEHAVIOR_LIMIT None
    (ReadBody parsed (SignedData hmac data)) s
  = (Thrown (speke_error NotInitialized), s) /\
  handle_read BAD_BEHAVIOR_LIMIT None
    (ReadBody parsed (KeyConfirmation kcd)) s
  = (Thrown (speke_error NotInitialized), s).
Proof.
  intros Ho He Hi. rewrite !handle_read_body by assumption.
  unfold dispatch, ConfirmHmacSignature, ConfirmKey, check_initialized.
  monad_unfold. cbn. rewrite He, Hi. split; reflexivity.
Qed.

(** C4, as amended.  On a session not yet closed, a read that fails with
    end-of-stream, broken pipe or bad descriptor leaves the session in
    [STOPPED_PEER_DISCONNECTED], and a read that fails with any other
    transport error leaves it in [STOPPED_ERROR]. *)
Theorem receive_error_classification (s : SpekeSession) (ec : error_code) :
  closed_ s = false ->
  is_open (socket_ s) = true ->
  let out := handle_read BAD_BEHAVIOR_LIMIT None (ReadFailed ec) s in
  fst out = Returned tt /\
  (ec = eof \/ ec = broken_pipe \/ ec = bad_descriptor ->
   state_ (snd out) = STOPPED_PEER_DISCONNECTED) /\
  (ec <> eof -> ec <> broken_pipe -> ec <> bad_descriptor ->
   state_ (snd out) = STOPPED_ERROR).
Proof.
  intros Hc Ho. cbn zeta. unfold handle_read. unfold bind at 1 3 5.
  rewrite receive_message_failed by assumption.
  rewrite (Close_not_closed (stopped_by ec) s Hc). cbn [snd].
  rewrite Close_closed by reflexivity. unfold stopped_by. cbn.
  split; [reflexivity|]. split.
  - intros [->|[->| ->]]; reflexivity.
  - destruct ec; intros; try reflexivity; congruence.
Qed.

Lemma dispatch_signed_valid s e handler hmac data :
  speke_ s = Some e ->
  ConfirmHmacSignature hmac data e = inr true ->
  message_handler_ s = Some handler ->
  dispatch BAD_BEHAVIOR_LIMIT (SignedData hmac data) s
  = (run_handler (handler data) ;; ret true) (log_delivered data s).
Proof.
  intros He Hv Hh. unfold dispatch, handle_message. cbn [has_signed_data].
  unfold bind, deref_speke, lift_engine, get, modify, ret.
  rewrite He, Hv, Hh. reflexivity.
Qed.

Lemma dispatch_signed_invalid s e hmac data :
  speke_ s = Some e ->
  ConfirmHmacSignature hmac data e = inr false ->
  dispatch BAD_BEHAVIOR_LIMIT (SignedData hmac data) s
  = (increase_bad_behavior_count BAD_BEHAVIOR_LIMIT ;; ret true) s.
Proof.
  intros He Hv. unfold dispatch. cbn [has_signed_data].
  unfold bind at 1 2, deref_speke, lift_engine, ret at 1.
  rewrite He, Hv. reflexivity.
Qed.

Lemma handle_read_signed_valid s e handler parsed hmac data :
  is_open (socket_ s) = true ->
  speke_ s = Some e ->
  ConfirmHmacSignature hmac data e = inr true ->
  message_handler_ s = Some handler ->
  handle_read BAD_BEHAVIOR_LIMIT None
    (ReadBody parsed (SignedData hmac data)) s
  = (run_handler (handler data) ;; start_reading) (log_delivered data s).
Proof.
  intros Ho He Hv Hh. rewrite handle_read_body by assumption.
  unfold bind at 1.
  rewrite (dispatch_signed_valid s e handler hmac data) by assumption.
  unfold bind, ret.
  now destruct (run_handler (handler data) (log_delivered data s))
    as [[[]|x|f] s2].
Qed.

Lemma SendMessage_signed_written s e message hmac :
  state_ s = RUNNING ->
  speke_ s = Some e ->
  HmacSign message e = inr hmac ->
  is_open (socket_ s) = true ->
  hd None (write_results (socket_ s)) = None ->
  SendMessage message s
  = (Returned tt,
     set_socket (fun sk =>
       mkSocket (is_open sk) (tl (write_results sk))
         (written sk ++ [SignedData hmac message]) (read_waits sk)) s).
Proof.
  intros Hs He Hh Ho Hw.
  rewrite <- (send_message_written (SignedData hmac message) s Ho Hw).
  unfold SendMessage, bind, get, deref_speke, lift_engine, ret.
  now rewrite Hs, He, Hh.
Qed.

(** C5. A received [SignedData] frame.  If the engine confirms the
    signature, the handler is called once, with the payload: the outcome
    of [handle_read] is that of the handler's calls for this payload, run
    once on the session, followed by the wait for the next read if the
    handler returned.  So a handler that returns at once leaves the
    session as it was but for the read awaited, an exception the handler
    lets out leaves [handle_read] with no read awaited, and a handler that
    answers through [SendMessage] has its signed frame written before it
    goes on.  The delivery is recorded once and the bad-behaviour counter
    is as it was.  If the engine rejects the signature, the handler is not
    called and the counter goes up by one; when it has reached
    [BAD_BEHAVIOR_LIMIT] the session closes with
    [STOPPED_PEER_BAD_BEHAVIOR], otherwise the session carries on.  And
    over any run of reads the counter never goes down: valid frames in
    between do not reset it. *)
Theorem signed_data_frame
    (s : SpekeSession) (e : SPEKE) (parsed : bool) (hmac data : Bytes) :
  is_open (socket_ s) = true ->
  speke_ s = Some e ->
  let out :=
    handle_read BAD_BEHAVIOR_LIMIT None
      (ReadBody parsed (SignedData hmac data)) s in
  (forall handler,
      ConfirmHmacSignature hmac data e = inr true ->
      message_handler_ s = Some handler ->
      out = (run_handler (handler data) ;; start_reading)
              (log_delivered data s) /\
      fst out = fst (run_handler (handler data) (log_delivered data s)) /\
      (handler data = HDone ->
       out = (Returned tt, read_scheduled (log_delivered data s))) /\
      (forall x,
          handler data = HThrow x ->
          out = (Thrown x, log_delivered data s)) /\
      (forall reply k signature,
          handler data = HSendMessage reply k ->
          state_ s = RUNNING ->
          HmacSign reply e = inr signature ->
          hd None (write_results (socket_ s)) = None ->
          out = (run_handler (k None) ;; start_reading)
                  (set_socket (fun sk =>
                     mkSocket (is_open sk) (tl (write_results sk))
                       (written sk ++ [SignedData signature reply])
                       (read_waits sk))
                     (log_delivered data s))) /\
      delivered (snd out) = delivered s ++ [data] /\
      bad_behavior_count_ (snd out) = bad_behavior_count_ s) /\
  (ConfirmHmacSignature hmac data e = inr false ->
   fst out = Returned tt /\
   delivered (snd out) = delivered s /\
   bad_behavior_count_ (snd out) = S (bad_behavior_count_ s) /\
   ((BAD_BEHAVIOR_LIMIT <= S (bad_behavior_count_ s))%nat ->
    closed_ s = false ->
    state_ (snd out) = STOPPED_PEER_BAD_BEHAVIOR /\
    closed_ (snd out) = true /\ speke_ (snd out) = None) /\
   ((S (bad_behavior_count_ s) < BAD_BEHAVIOR_LIMIT)%nat ->
    state_ (snd out) = state_ s /\ closed_ (snd out) = closed_ s /\
    speke_ (snd out) = speke_ s)) /\
  (forall events s0,
      (bad_behavior_count_ s0
       <= bad_behavior_count_
            (snd (handle_reads BAD_BEHAVIOR_LIMIT events s0)))%nat).
Proof.
  intros Ho He. cbn zeta. split; [|split].
  - intros handler Hv Hh.
    rewrite (handle_read_signed_valid s e handler parsed hmac data)
      by assumption.
    split; [reflexivity|]. split; [|split; [|split; [|split]]].
    + unfold bind.
      now destruct (run_handler (handler data) (log_delivered data s))
        as [[[]|x|f] s2].
    + intros ->. reflexivity.
    + intros x ->. reflexivity.
    + intros reply k signature -> Hs Hh' Hw. cbn [run_handler].
      unfold bind at 1 2. unfold try_catch, bind at 1.
      rewrite (SendMessage_signed_written (log_delivered data s) e
                 reply signature) by assumption.
      reflexivity.
    + unfold bind, start_reading, modify.
      pose proof (run_handler_keeps_tally (handler data)
                    (log_delivered data s)) as [Hc Hd].
      destruct (run_handler (handler data) (log_delivered data s))
        as [[[]|x|f] s2]; session_simpl; rewrite Hc, Hd;
        split; reflexivity.
  - intros Hv. rewrite handle_read_body by assumption. unfold bind.
    rewrite (dispatch_signed_invalid s e hmac data) by assumption.
    unfold increase_bad_behavior_count, bind, get, modify, ret.
    destruct (Nat.leb_spec BAD_BEHAVIOR_LIMIT (S (bad_behavior_count_ s)))
      as [Hle|Hlt].
    + destruct (closed_ s) eqn:Hc.
      * rewrite Close_closed by exact Hc. cbn.
        repeat split; try reflexivity; try discriminate; lia.
      * rewrite Close_not_closed by exact Hc. cbn.
        repeat split; try reflexivity; lia.
    + cbn. repeat split; try reflexivity; lia.
  - intros events s0. apply handle_reads_count_grows.
Qed.

Lemma provide_remote_pair_run s e id pubkey failure e' :
  speke_ s = Some e ->
  ProvideRemotePublicKeyIdPair pubkey id e = (failure, e') ->
  provide_remote_pair pubkey id s
  = (match failure with
     | Some err => Thrown (speke_error err)
     | None => Returned tt
     end, set_speke (Some e') s).
Proof.
  intros He Hp. unfold provide_remote_pair, bind at 1, deref_speke.
  rewrite He, Hp. destruct failure; reflexivity.
Qed.

Lemma send_key_confirmation_run s e :
  speke_ s = Some e ->
  initialized_ e = true ->
  send_key_confirmation s
  = send_message (KeyConfirmation (key_confirmation_data_ e)) s.
Proof.
  intros He Hi.
  unfold send_key_confirmation, bind, deref_speke, lift_engine,
    GetKeyConfirmationData, check_initialized.
  now rewrite He, Hi.
Qed.

(** The [init_data] branch, by the outcome of the engine call. *)
Lemma dispatch_init_data s e id pubkey failure e' :
  speke_ s = Some e ->
  ProvideRemotePublicKeyIdPair pubkey id e = (failure, e') ->
  dispatch BAD_BEHAVIOR_LIMIT (InitData id pubkey) s
  = match failure with
    | Some err =>
        if is_logic_error (speke_error err)
        then (Returned true, set_speke (Some e') s)
        else if is_runtime_error (speke_error err)
        then (Close STOPPED_PEER_PUBLIC_KEY_OR_ID_INVALID ;; ret false)
               (set_speke (Some e') s)
        else (Thrown (speke_error err), set_speke (Some e') s)
    | None =>
        try_catch (send_key_confirmation ;; ret true)
          (fun x =>
             if is_logic_error x then Some (ret true)
             else if is_runtime_error x then
               Some (Close STOPPED_PEER_PUBLIC_KEY_OR_ID_INVALID ;;
                     ret false)
             else None)
          (set_speke (Some e') s)
    end.
Proof.
  intros He Hp. unfold dispatch. cbn [has_signed_data has_init_data].
  unfold try_catch, bind at 1.
  rewrite (provide_remote_pair_run s e id pubkey failure e' He Hp).
  destruct failure as [err|]; [|reflexivity].
  destruct (is_logic_error (speke_error err)); [reflexivity|].
  destruct (is_runtime_error (speke_error err)); reflexivity.
Qed.

(** C6. A received [InitData] frame.  If the engine reports
    [AlreadyInitialized], the frame is ignored: nothing changes, the
    bad-behaviour counter included, but that the next read is awaited.
    If the engine reports [PeerKeyInvalid], the session closes with
    [STOPPED_PEER_PUBLIC_KEY_OR_ID_INVALID].  If the engine accepts the
    pair, the session sends a [KeyConfirmation] frame carrying the
    engine's key-confirmation data and awaits the next read; when the
    transport takes the write, that frame is the one written. *)
Theorem init_data_frame
    (s : SpekeSession) (e : SPEKE) (parsed : bool)
    (id : string) (pubkey : Bytes) :
  is_open (socket_ s) = true ->
  speke_ s = Some e ->
  let out :=
    handle_read BAD_BEHAVIOR_LIMIT None
      (ReadBody parsed (InitData id pubkey)) s in
  (forall e',
      ProvideRemotePublicKeyIdPair pubkey id e
      = (Some AlreadyInitialized, e') ->
      fst out = Returned tt /\
      state_ (snd out) = state_ s /\
      closed_ (snd out) = closed_ s /\
      bad_behavior_count_ (snd out) = bad_behavior_count_ s /\
      speke_ (snd out) = Some e /\
      written (socket_ (snd out)) = written (socket_ s) /\
      read_waits (socket_ (snd out)) = S (read_waits (socket_ s))) /\
  (forall e',
      ProvideRemotePublicKeyIdPair pubkey id e = (Some PeerKeyInvalid, e') ->
      closed_ s = false ->
      fst out = Returned tt /\
      state_ (snd out) = STOPPED_PEER_PUBLIC_KEY_OR_ID_INVALID /\
      bad_behavior_count_ (snd out) = bad_behavior_count_ s /\
      written (socket_ (snd out)) = written (socket_ s) /\
      read_waits (socket_ (snd out)) = read_waits (socket_ s)) /\
  (forall e',
      ProvideRemotePublicKeyIdPair pubkey id e = (None, e') ->
      GetKeyConfirmationData e' = inr (key_confirmation_data_ e') /\
      out = (send_message (KeyConfirmation (key_confirmation_data_ e')) ;;
             start_reading) (set_speke (Some e') s) /\
      (hd None (write_results (socket_ s)) = None ->
       fst out = Returned tt /\
       written (socket_ (snd out))
       = written (socket_ s) ++ [KeyConfirmation (key_confirmation_data_ e')] /\
       state_ (snd out) = state_ s /\
       speke_ (snd out) = Some e' /\
       bad_behavior_count_ (snd out) = bad_behavior_count_ s)).
Proof.
  intros Ho He. cbn zeta. rewrite handle_read_body by assumption.
  unfold bind. split; [|split]; intros e' Hp.
  - assert (e' = e) as ->.
    { unfold ProvideRemotePublicKeyIdPair in Hp.
      destruct (initialized_ e); [congruence|].
      destruct (negb _); [discriminate|].
      destruct (make_encryption_key _). discriminate. }
    rewrite (dispatch_init_data s e id pubkey _ _ He Hp).
    cbn. auto 10.
  - intros Hc.
    rewrite (dispatch_init_data s e id pubkey _ _ He Hp).
    cbn [is_logic_error is_runtime_error]. rewrite Close_then_ret.
    rewrite Close_not_closed by exact Hc. cbn. auto 10.
  - pose proof (Provide_result_initialized _ _ _ _ Hp) as Hi.
    assert (Hk : GetKeyConfirmationData e'
                 = inr (key_confirmation_data_ e')).
    { unfold GetKeyConfirmationData, check_initialized. now rewrite Hi. }
    split; [exact Hk|].
    rewrite (dispatch_init_data s e id pubkey _ _ He Hp).
    unfold try_catch, bind, ret.
    rewrite (send_key_confirmation_run (set_speke (Some e') s) e')
      by (reflexivity || assumption).
    pose proof (send_message_open
                  (KeyConfirmation (key_confirmation_data_ e'))
                  (set_speke (Some e') s) Ho) as Hs.
    split.
    + destruct (send_message _ _) as [[[]|x|f] s2]; cbn in Hs;
        try discriminate. reflexivity.
    + intros Hw. rewrite send_message_written by assumption.
      cbn. auto 10.
Qed.

(** Once the session is released, no entry point changes its state. *)
Lemma perform_released op s :
  released s ->
  released (snd (perform BAD_BEHAVIOR_LIMIT op s)) /\
  state_ (snd (perform BAD_BEHAVIOR_LIMIT op s)) = state_ s.
Proof.
  intros (Hc & He & Ho). unfold released.
  destruct op as [state|[ec|] rx|message|handler|handler]; cbn [perform].
  - now rewrite Close_closed by assumption.
  - unfold handle_read. now rewrite Close_closed by assumption.
  - unfold handle_read, receive_message, ReceiveMessage.
    monad_unfold. rewrite Ho. now cbn.
  - unfold SendMessage. monad_unfold.
    destruct (state_ s) eqn:Hs; cbn; rewrite ?He; cbn; now rewrite ?Hs.
  - now cbn.
  - unfold Run, Run_until_sent, SetMessageHandler. monad_unfold.
    destruct (state_ s) eqn:Hs; cbn; rewrite ?He; cbn; now rewrite ?Hs.
Qed.

Lemma perform_all_released ops s :
  released s -> state_ (perform_all BAD_BEHAVIOR_LIMIT ops s) = state_ s.
Proof.
  revert s. induction ops as [|op ops IH]; intros s Hr; [reflexivity|].
  cbn [perform_all].
  destruct (perform_released op s Hr) as [Hr' Hs'].
  now rewrite IH.
Qed.

(** C7. Idempotent close: on a session not yet closed, the first of a run
    of [Close] calls sets the state to its argument and releases the
    engine and the socket; the calls after it change nothing, so the
    session after the whole run is the session after the first call.
    The same holds with any other operations in between, the reads whose
    failure closes the session again included: the state stays the one
    the first call set. *)
Theorem close_idempotent
    (s : SpekeSession) (first : SpekeSessionState)
    (later : list SpekeSessionState) (ops : list operation) :
  closed_ s = false ->
  let s1 := snd (Close first s) in
  state_ s1 = first /\ speke_ s1 = None /\ is_open (socket_ s1) = false /\
  closed_ s1 = true /\
  Close_all (first :: later) s = (Returned tt, s1) /\
  state_ (perform_all BAD_BEHAVIOR_LIMIT ops s1) = first.
Proof.
  intros Hc. cbn zeta. cbn [Close_all]. unfold bind at 1.
  rewrite (Close_not_closed _ _ Hc). cbn [snd].
  repeat split.
  - now apply Close_all_closed.
  - now rewrite perform_all_released by (repeat split).
Qed.

(** C10. A received envelope with none of the three variants set is
    ignored: the state, the bad-behaviour counter, the engine and the
    handler are as they were, the handler is not called, no frame is
    written, and the next read is awaited. *)
Theorem unset_envelope_ignored (s : SpekeSession) (parsed : bool) :
  is_open (socket_ s) = true ->
  let out := handle_read BAD_BEHAVIOR_LIMIT None (ReadBody parsed NotSet) s in
  out = (Returned tt, read_scheduled s) /\
  state_ (snd out) = state_ s /\
  bad_behavior_count_ (snd out) = bad_behavior_count_ s /\
  speke_ (snd out) = speke_ s /\
  message_handler_ (snd out) = message_handler_ s /\
  delivered (snd out) = delivered s /\
  written (socket_ (snd out)) = written (socket_ s) /\
  read_waits (socket_ (snd out)) = S (read_waits (socket_ s)).
Proof.
  intros Ho. cbn zeta. rewrite handle_read_body by assumption.
  cbn. auto 10.
Qed.

End SessionFacts.

(** ** The statements on the concrete setting *)

Lemma symmetry_of_derived_material_witness :
  SPEKE_new (H := demo_primitives) "alice" demo_password 23 2 ∅
  = (Some demo_alice, demo_registry) /\
  SPEKE_new (H := demo_primitives) "bob" demo_password 23 4 ∅
  = (Some demo_bob, <["bob" := 1%nat]> ∅) /\
  ProvideRemotePublicKeyIdPair (H := demo_primitives)
    (GetPublicKey demo_bob) (id_numbered_ demo_bob) demo_alice
  = (None, demo_alice_ready) /\
  ProvideRemotePublicKeyIdPair (H := demo_primitives)
    (GetPublicKey demo_alice) (id_numbered_ demo_alice) demo_bob
  = (None, demo_bob_ready) /\
  encryption_key_ demo_alice_ready = encryption_key_ demo_bob_ready /\
  nonce_ demo_alice_ready = nonce_ demo_bob_ready /\
  key_confirmation_data_ demo_alice_ready
  = kcd_remote (H := demo_primitives) demo_bob_ready /\
  key_confirmation_data_ demo_bob_ready
  = kcd_remote (H := demo_primitives) demo_alice_ready /\
  ConfirmKey (H := demo_primitives)
    (key_confirmation_data_ demo_alice_ready) demo_bob_ready = inr true /\
  ConfirmKey (H := demo_primitives)
    (key_confirmation_data_ demo_bob_ready) demo_alice_ready = inr true.
Proof.
  split; [vm_compute; reflexivity|].
  split; [vm_compute; reflexivity|].
  split; [vm_compute; reflexivity|].
  split; [vm_compute; reflexivity|].
  apply (symmetry_of_derived_material (H := demo_primitives)
           demo_password 23 "alice" "bob" 2 4 ∅ ∅
           demo_registry (<["bob" := 1%nat]> ∅)
           demo_alice demo_bob demo_alice_ready demo_bob_ready);
    vm_compute; reflexivity.
Defined.

Lemma once_only_initialization_witness :
  ProvideRemotePublicKeyIdPair (H := demo_primitives)
    [x09] "bob-1" demo_alice = (None, demo_alice_ready) /\
  ProvideRemotePublicKeyIdPair (H := demo_primitives)
    [x0c] "mallory-1" demo_alice_ready
  = (Some AlreadyInitialized, demo_alice_ready) /\
  provide_all (H := demo_primitives)
    [([x0c], "mallory-1"); ([x09], "bob-1")] demo_alice_ready
  = ([Some AlreadyInitialized; Some AlreadyInitialized], demo_alice_ready).
Proof.
  split; [vm_compute; reflexivity|].
  assert (Hfirst : ProvideRemotePublicKeyIdPair (H := demo_primitives)
                     [x09] "bob-1" demo_alice = (None, demo_alice_ready))
    by (vm_compute; reflexivity).
  pose proof (once_only_initialization (H := demo_primitives)
                [x09] "bob-1" demo_alice demo_alice_ready Hfirst)
    as (Hcall & Hrun & _).
  split; [apply Hcall|apply Hrun].
Defined.

Lemma id_numbered_distinct_witness :
  SPEKE_new (H := demo_primitives) "alice" demo_password 23 2 ∅
  = (Some demo_alice, demo_registry) /\
  SPEKE_new (H := demo_primitives) "alice" demo_password 23 9
    (construct_all (H := demo_primitives) demo_between demo_registry)
  = (Some demo_alice_again,
     <["alice" := 3%nat]>
       (construct_all (H := demo_primitives) demo_between demo_registry)) /\
  id_numbered_ demo_alice = "alice-1" /\
  id_numbered_ demo_alice_again = "alice-3" /\
  id_numbered_ demo_alice <> id_numbered_ demo_alice_again.
Proof.
  split; [vm_compute; reflexivity|].
  split; [vm_compute; reflexivity|].
  split; [reflexivity|]. split; [reflexivity|].
  apply (id_numbered_distinct (H := demo_primitives)
           "alice" demo_password demo_password 23 23 2 9
           ∅ demo_registry
           (<["alice" := 3%nat]>
              (construct_all (H := demo_primitives)
                 demo_between demo_registry))
           demo_between demo_alice demo_alice_again);
    vm_compute; reflexivity.
Defined.

Lemma close_idempotent_witness :
  closed_ (demo_running demo_alice_ready) = false /\
  state_ (snd (Close STOPPED_PEER_DISCONNECTED (demo_running demo_alice_ready)))
  = STOPPED_PEER_DISCONNECTED /\
  Close_all [STOPPED_PEER_DISCONNECTED; STOPPED_ERROR; STOPPED]
    (demo_running demo_alice_ready)
  = (Returned tt,
     snd (Close STOPPED_PEER_DISCONNECTED (demo_running demo_alice_ready))) /\
  state_
    (perform_all (H := demo_primitives) demo_limit
       [OpHandleRead (Some operation_aborted) (ReadFailed eof);
        OpRun demo_echo; OpClose STOPPED]
       (snd (Close STOPPED_PEER_DISCONNECTED
               (demo_running demo_alice_ready))))
  = STOPPED_PEER_DISCONNECTED.
Proof.
  split; [reflexivity|].
  pose proof (close_idempotent (H := demo_primitives) demo_limit
                (demo_running demo_alice_ready)
                STOPPED_PEER_DISCONNECTED [STOPPED_ERROR; STOPPED]
                [OpHandleRead (Some operation_aborted) (ReadFailed eof);
                 OpRun demo_echo; OpClose STOPPED] eq_refl)
    as (Hstate & _ & _ & _ & Hrun & Hops).
  split; [exact Hstate|]. split; [exact Hrun|exact Hops].
Defined.

Lemma engine_error_escapes_handle_read_witness :
  is_open (socket_ (demo_running demo_alice)) = true /\
  speke_ (demo_running demo_alice) = Some demo_alice /\
  initialized_ demo_alice = false /\
  handle_read (H := demo_primitives) demo_limit None
    (ReadBody true (SignedData [] [])) (demo_running demo_alice)
  = (Thrown (speke_error NotInitialized), demo_running demo_alice) /\
  handle_read (H := demo_primitives) demo_limit None
    (ReadBody true (KeyConfirmation [])) (demo_running demo_alice)
  = (Thrown (speke_error NotInitialized), demo_running demo_alice).
Proof.
  split; [reflexivity|]. split; [reflexivity|]. split; [reflexivity|].
  exact (engine_error_escapes_handle_read (H := demo_primitives) demo_limit
           (demo_running demo_alice) demo_alice true [] [] []
           eq_refl eq_refl eq_refl).
Defined.

Lemma receive_error_classification_witness :
  closed_ (demo_running demo_alice_ready) = false /\
  is_open (socket_ (demo_running demo_alice_ready)) = true /\
  state_ (snd (handle_read (H := demo_primitives) demo_limit None
                 (ReadFailed eof) (demo_running demo_alice_ready)))
  = STOPPED_PEER_DISCONNECTED /\
  state_ (snd (handle_read (H := demo_primitives) demo_limit None
                 (ReadFailed timed_out) (demo_running demo_alice_ready)))
  = STOPPED_ERROR.
Proof.
  split; [reflexivity|]. split; [reflexivity|]. split.
  - pose proof (receive_error_classification (H := demo_primitives)
                  demo_limit (demo_running demo_alice_ready) eof
                  eq_refl eq_refl)
      as (_ & Hdisc & _).
    apply Hdisc. left. reflexivity.
  - pose proof (receive_error_classification (H := demo_primitives)
                  demo_limit (demo_running demo_alice_ready) timed_out
                  eq_refl eq_refl)
      as (_ & _ & Hother).
    apply Hother; discriminate.
Defined.

(** C4, as stated, fails: a body that does not parse, which leaves the
    envelope with no variant set, does not stop the session. *)
Lemma unparsed_body_not_stopped :
  handle_read (H := demo_primitives) demo_limit None
    (ReadBody false NotSet) (demo_running demo_alice_ready)
  = (Returned tt, read_scheduled (demo_running demo_alice_ready)) /\
  state_ (snd (handle_read (H := demo_primitives) demo_limit None
                 (ReadBody false NotSet) (demo_running demo_alice_ready)))
  = RUNNING /\
  state_ (snd (handle_read (H := demo_primitives) demo_limit None
                 (ReadBody false NotSet) (demo_running demo_alice_ready)))
  <> STOPPED_ERROR.
Proof.
  split; [reflexivity|]. split; [reflexivity|]. discriminate.
Qed.

Lemma signed_data_frame_witness :
  is_open (socket_ (demo_running demo_alice_ready)) = true /\
  speke_ (demo_running demo_alice_ready) = Some demo_alice_ready /\
  ConfirmHmacSignature (H := demo_primitives)
    ["a"; "l"; x01]%byte [x01] demo_alice_ready = inr true /\
  message_handler_ (demo_running demo_alice_ready) = Some demo_echo /\
  HmacSign (H := demo_primitives) [x01] demo_alice_ready
  = inr ["a"; "l"; x01]%byte /\
  handle_read (H := demo_primitives) demo_limit None
    (ReadBody true (SignedData ["a"; "l"; x01]%byte [x01]))
    (demo_running demo_alice_ready)
  = (Returned tt,
     mkSession
       (mkSocket true [] [SignedData ["a"; "l"; x01]%byte [x01]] 1)
       (Some demo_alice_ready) RUNNING false 0 (Some demo_echo) [[x01]]) /\
  delivered
    (snd (handle_read (H := demo_primitives) demo_limit None
            (ReadBody true (SignedData ["a"; "l"; x01]%byte [x01]))
            (demo_running demo_alice_ready)))
  = [[x01]] /\
  ConfirmHmacSignature (H := demo_primitives)
    [x00] [x01] demo_alice_ready = inr false /\
  bad_behavior_count_
    (snd (handle_read (H := demo_primitives) demo_limit None
            (ReadBody true (SignedData [x00] [x01]))
            (demo_running demo_alice_ready)))
  = 1%nat.
Proof.
  split; [reflexivity|]. split; [reflexivity|].
  split; [vm_compute; reflexivity|].
  split; [reflexivity|]. split; [vm_compute; reflexivity|].
  pose proof (signed_data_frame (H := demo_primitives) demo_limit
                (demo_running demo_alice_ready) demo_alice_ready true
                ["a"; "l"; x01]%byte [x01] eq_refl eq_refl)
    as (Hvalid & _ & _).
  assert (Hv : ConfirmHmacSignature (H := demo_primitives)
                 ["a"; "l"; x01]%byte [x01] demo_alice_ready = inr true)
    by (vm_compute; reflexivity).
  destruct (Hvalid demo_echo Hv eq_refl)
    as (_ & _ & _ & _ & Hsend & Hdelivered & _).
  split.
  - refine (eq_trans
              (Hsend [x01] (fun _ => HDone) ["a"; "l"; x01]%byte
                 eq_refl eq_refl _ eq_refl) _);
      vm_compute; reflexivity.
  - split; [exact Hdelivered|].
    split; [vm_compute; reflexivity|].
    pose proof (signed_data_frame (H := demo_primitives) demo_limit
                  (demo_running demo_alice_ready) demo_alice_ready true
                  [x00] [x01] eq_refl eq_refl)
      as (_ & Hbad & _).
    refine (proj1 (proj2 (proj2 (Hbad _)))).
    vm_compute; reflexivity.
Defined.

Lemma init_data_frame_witness :
  is_open (socket_ (demo_running demo_alice)) = true /\
  speke_ (demo_running demo_alice) = Some demo_alice /\
  ProvideRemotePublicKeyIdPair (H := demo_primitives) [x09] "bob-1" demo_alice
  = (None, demo_alice_ready) /\
  written
    (socket_
       (snd (handle_read (H := demo_primitives) demo_limit None
               (ReadBody true (InitData "bob-1" [x09]))
               (demo_running demo_alice))))
  = [KeyConfirmation (key_confirmation_data_ demo_alice_ready)] /\
  ProvideRemotePublicKeyIdPair (H := demo_primitives) [x01] "bob-1" demo_alice
  = (Some PeerKeyInvalid, demo_alice) /\
  state_
    (snd (handle_read (H := demo_primitives) demo_limit None
            (ReadBody true (InitData "bob-1" [x01]))
            (demo_running demo_alice)))
  = STOPPED_PEER_PUBLIC_KEY_OR_ID_INVALID /\
  ProvideRemotePublicKeyIdPair (H := demo_primitives)
    [x09] "bob-1" demo_alice_ready
  = (Some AlreadyInitialized, demo_alice_ready) /\
  bad_behavior_count_
    (snd (handle_read (H := demo_primitives) demo_limit None
            (ReadBody true (InitData "bob-1" [x09]))
            (demo_running demo_alice_ready)))
  = bad_behavior_count_ (demo_running demo_alice_ready).
Proof.
  split; [reflexivity|]. split; [reflexivity|].
  split; [vm_compute; reflexivity|].
  split.
  { pose proof (init_data_frame (H := demo_primitives) demo_limit
                  (demo_running demo_alice) demo_alice true "bob-1" [x09]
                  eq_refl eq_refl)
      as (_ & _ & Hok).
    assert (Hp : ProvideRemotePublicKeyIdPair (H := demo_primitives)
                   [x09] "bob-1" demo_alice = (None, demo_alice_ready))
      by (vm_compute; reflexivity).
    exact (proj1 (proj2 (proj2 (proj2 (Hok demo_alice_ready Hp)) eq_refl))). }
  split; [vm_compute; reflexivity|].
  split.
  { pose proof (init_data_frame (H := demo_primitives) demo_limit
                  (demo_running demo_alice) demo_alice true "bob-1" [x01]
                  eq_refl eq_refl)
      as (_ & Hinvalid & _).
    assert (Hp : ProvideRemotePublicKeyIdPair (H := demo_primitives)
                   [x01] "bob-1" demo_alice = (Some PeerKeyInvalid, demo_alice))
      by (vm_compute; reflexivity).
    exact (proj1 (proj2 (Hinvalid demo_alice Hp eq_refl))). }
  split; [vm_compute; reflexivity|].
  pose proof (init_data_frame (H := demo_primitives) demo_limit
                (demo_running demo_alice_ready) demo_alice_ready true
                "bob-1" [x09] eq_refl eq_refl)
    as (Hdup & _ & _).
  assert (Hp : ProvideRemotePublicKeyIdPair (H := demo_primitives)
                 [x09] "bob-1" demo_alice_ready
               = (Some AlreadyInitialized, demo_alice_ready))
    by (vm_compute; reflexivity).
  exact (proj1 (proj2 (proj2 (proj2 (Hdup demo_alice_ready Hp))))).
Defined.

Lemma unset_envelope_ignored_witness :
  is_open (socket_ (demo_running demo_alice_ready)) = true /\
  handle_read (H := demo_primitives) demo_limit None
    (ReadBody true NotSet) (demo_running demo_alice_ready)
  = (Returned tt, read_scheduled (demo_running demo_alice_ready)).
Proof.
  split; [reflexivity|].
  exact (proj1 (unset_envelope_ignored (H := demo_primitives) demo_limit
                  (demo_running demo_alice_ready) true eq_refl)).
Defined.

(** * Further properties of [SpekeSession.cpp] *)

(** ** The bytes of a frame *)

Lemma le_bytes_length (w : nat) (n : Z) : length (le_bytes w n) = w.
Proof. revert n. induction w as [|w IH]; intros n; cbn; [|rewrite IH]; reflexivity. Qed.

Lemma from_le_digits_le_bytes (w : nat) :
  forall n, 0 <= n < 256 ^ Z.of_nat w -> from_le_digits (le_bytes w n) = n.
Proof.
  induction w as [|w IH]; intros n Hn.
  - simpl in *. lia.
  - cbn [le_bytes from_le_digits]. rewrite Z_of_byte_of_Z, IH.
    + pose proof (Z.div_mod n 256). lia.
    + rewrite Nat2Z.inj_succ, Z.pow_succ_r in Hn by lia.
      split; [apply Z.div_pos; lia|].
      apply Z.div_lt_upper_bound; lia.
Qed.

Lemma size_to_bytes_length r n : length (size_to_bytes r n) = size_width r.
Proof.
  unfold size_to_bytes. destruct (big_endian r);
    now rewrite ?length_rev, le_bytes_length.
Qed.

Lemma size_of_bytes_to_bytes r n :
  0 <= n < 256 ^ Z.of_nat (size_width r) ->
  size_of_bytes r (size_to_bytes r n) = n.
Proof.
  intros Hn. unfold size_of_bytes, size_to_bytes.
  destruct (big_endian r); rewrite ?rev_involutive;
    now apply from_le_digits_le_bytes.
Qed.

Lemma firstn_app_exact {A} (l1 l2 : list A) n :
  n = length l1 -> firstn n (l1 ++ l2) = l1.
Proof.
  intros ->. rewrite firstn_app, Nat.sub_diag, firstn_all. cbn.
  apply app_nil_r.
Qed.

Lemma skipn_app_exact {A} (l1 l2 : list A) n :
  n = length l1 -> skipn n (l1 ++ l2) = l2.
Proof.
  intros ->. rewrite skipn_app, Nat.sub_diag, skipn_all. reflexivity.
Qed.

Lemma read_frame_app (r : size_repr) (body rest : Bytes) :
  Z.of_nat (length body) < 256 ^ Z.of_nat (size_width r) ->
  read_frame r (frame_bytes r body ++ rest) = Some (body, rest).
Proof.
  intros Hfit. unfold read_frame, frame_bytes.
  pose proof (size_to_bytes_length r (Z.of_nat (length body))) as Hw.
  rewrite <- app_assoc.
  destruct (Nat.ltb_spec (length (size_to_bytes r (Z.of_nat (length body))
                                  ++ body ++ rest)) (size_width r))
    as [Hshort|_].
  { rewrite length_app in Hshort. lia. }
  rewrite firstn_app_exact, skipn_app_exact by (symmetry; exact Hw).
  rewrite size_of_bytes_to_bytes by lia. rewrite Nat2Z.id.
  destruct (Nat.ltb_spec (length (body ++ rest)) (length body)) as [Hshort|_].
  { rewrite length_app in Hshort. lia. }
  now rewrite firstn_app_exact, skipn_app_exact.
Qed.

(** X1. What [SendMessage] writes, [ReceiveMessage] reads back: from a
    stream that starts with a frame, the reads yield the body of the frame
    and leave the rest of the stream, provided the size of the body fits
    the [size_t]; this for either byte order. *)
Theorem read_frame_frame_bytes (r : size_repr) (body rest : Bytes) :
  Z.of_nat (length body) < 256 ^ Z.of_nat (size_width r) ->
  read_frame r (frame_bytes r body ++ rest) = Some (body, rest) /\
  length (frame_bytes r body) = (size_width r + length body)%nat.
Proof.
  intros Hfit. split; [now apply read_frame_app|].
  unfold frame_bytes. now rewrite length_app, size_to_bytes_length.
Qed.

(** X2. A run of frames written one after the other is read back frame
    by frame, in order, and the stream ends cleanly. *)
Theorem read_frames_frame_bytes (r : size_repr) (bodies : list Bytes) :
  (0 < size_width r)%nat ->
  Forall (fun body => Z.of_nat (length body) < 256 ^ Z.of_nat (size_width r))
    bodies ->
  read_frames (S (length bodies)) r (concat (map (frame_bytes r) bodies))
  = (bodies, true).
Proof.
  intros Hw Hfit. induction Hfit as [|body bodies Hb _ IH]; [reflexivity|].
  cbn [map concat length]. cbn [read_frames] in *.
  rewrite read_frame_app by assumption. rewrite IH.
  destruct (frame_bytes r body ++ concat (map (frame_bytes r) bodies))
    as [|b l] eqn:Hs; [|reflexivity].
  apply (f_equal (@length byte)) in Hs.
  unfold frame_bytes in Hs. rewrite !length_app, size_to_bytes_length in Hs.
  cbn in Hs. lia.
Qed.

(** X3. A stream that ends inside a frame yields no body: the read fails
    with end-of-stream instead of delivering a shorter message. *)
Theorem read_frame_truncated (r : size_repr) (body : Bytes) (k : nat) :
  Z.of_nat (length body) < 256 ^ Z.of_nat (size_width r) ->
  (k < length (frame_bytes r body))%nat ->
  read_frame r (firstn k (frame_bytes r body)) = None.
Proof.
  intros Hfit Hk. unfold read_frame.
  destruct (Nat.ltb_spec (length (firstn k (frame_bytes r body)))
              (size_width r)) as [|Hlong]; [reflexivity|].
  rewrite length_firstn in Hlong.
  unfold frame_bytes in *.
  pose proof (size_to_bytes_length r (Z.of_nat (length body))) as Hw.
  rewrite length_app, Hw in Hk.
  rewrite firstn_app, Hw.
  rewrite (firstn_all2 (size_to_bytes r _)) by lia.
  rewrite firstn_app_exact, skipn_app_exact by (symmetry; exact Hw).
  rewrite size_of_bytes_to_bytes by lia. rewrite Nat2Z.id.
  destruct (Nat.ltb_spec (length (firstn (k - size_width r) body))
              (length body)) as [|Hge]; [reflexivity|].
  rewrite length_firstn in Hge. lia.
Qed.

Lemma read_frame_frame_bytes_witness :
  Z.of_nat (length [x0a; x0b; x0c]) < 256 ^ Z.of_nat (size_width demo_size_le)
  /\ read_frame demo_size_le (frame_bytes demo_size_le [x0a; x0b; x0c] ++ [xff])
     = Some ([x0a; x0b; x0c], [xff])
  /\ read_frame demo_size_be (frame_bytes demo_size_be [x0a; x0b; x0c] ++ [xff])
     = Some ([x0a; x0b; x0c], [xff]).
Proof.
  assert (Hfit : Z.of_nat (length [x0a; x0b; x0c]) < 256 ^ Z.of_nat 8)
    by (vm_compute; reflexivity).
  split; [exact Hfit|]. split.
  - exact (proj1 (read_frame_frame_bytes demo_size_le [x0a; x0b; x0c] [xff]
                    Hfit)).
  - exact (proj1 (read_frame_frame_bytes demo_size_be [x0a; x0b; x0c] [xff]
                    Hfit)).
Defined.

Lemma read_frames_frame_bytes_witness :
  (0 < size_width demo_size_le)%nat /\
  read_frames 4 demo_size_le
    (concat (map (frame_bytes demo_size_le) [[x01]; []; [x02; x03]]))
  = ([[x01]; []; [x02; x03]], true).
Proof.
  split; [vm_compute; lia|].
  apply (read_frames_frame_bytes demo_size_le [[x01]; []; [x02; x03]]).
  - vm_compute. lia.
  - repeat constructor.
Defined.

Lemma read_frame_truncated_witness :
  (9 < length (frame_bytes demo_size_le [x0a; x0b; x0c]))%nat /\
  read_frame demo_size_le (firstn 9 (frame_bytes demo_size_le [x0a; x0b; x0c]))
  = None.
Proof.
  split; [vm_compute; lia|].
  apply (read_frame_truncated demo_size_le [x0a; x0b; x0c] 9).
  - vm_compute. reflexivity.
  - vm_compute. lia.
Defined.

(** ** Invariants of the session *)

#[local] Instance keeps_preorder (P : SpekeSession -> Prop) :
  PreOrder (keeps P).
Proof. split; unfold keeps; [intros s | intros s1 s2 s3]; auto. Qed.

#[local] Instance core_kept_preorder : PreOrder core_kept.
Proof.
  split.
  - intros s. repeat split.
  - intros s1 s2 s3 (A1 & A2 & A3 & A4 & A5) (B1 & B2 & B3 & B4 & B5).
    repeat split; congruence.
Qed.

#[local] Instance same_but_handler_preorder : PreOrder same_but_handler.
Proof.
  split.
  - intros [sk e st c n h d]. reflexivity.
  - intros [sk1 e1 st1 c1 n1 h1 d1] [sk2 e2 st2 c2 n2 h2 d2]
      [sk3 e3 st3 c3 n3 h3 d3]. unfold same_but_handler. cbn.
    intros [= -> -> -> -> -> ->] [= -> -> -> -> -> ->]. reflexivity.
Qed.

#[local] Instance delivered_kept_preorder : PreOrder delivered_kept.
Proof.
  split; unfold delivered_kept; [intros s | intros s1 s2 s3]; congruence.
Qed.

Section Invariant.
Context `{Primitives}.
Variable BAD_BEHAVIOR_LIMIT : nat.

(** A property of sessions that depends on the core fields alone, that
    [Close] and the last statement of [Run] keep, and that the two places
    where [handle_read] writes a core field behind a live engine keep. *)
Variable P : SpekeSession -> Prop.
Hypothesis P_core : forall s s', core_kept s s' -> P s -> P s'.
Hypothesis P_Close : forall state, steps_within (keeps P) (Close state).
Hypothesis P_running : forall s, P s -> P (set_state RUNNING s).
Hypothesis P_speke :
  forall s e e', speke_ s = Some e -> P s -> P (set_speke (Some e') s).
Hypothesis P_increase :
  forall s e,
    speke_ s = Some e ->
    P s -> P (snd (increase_bad_behavior_count BAD_BEHAVIOR_LIMIT s)).

Lemma core_kept_keeps {A} (m : M A) :
  steps_within core_kept m -> steps_within (keeps P) m.
Proof. intros Hm s HP. eapply P_core; [apply Hm|exact HP]. Qed.

Lemma start_reading_core : steps_within core_kept start_reading.
Proof. intros s. repeat split. Qed.

Lemma SetMessageHandler_core handler :
  steps_within core_kept (SetMessageHandler handler).
Proof. intros s. repeat split. Qed.

Lemma log_delivered_core data :
  steps_within core_kept (modify (log_delivered data)).
Proof. intros s. repeat split. Qed.

Lemma SendMessage_to_socket_core message :
  steps_within core_kept (SendMessage_to_socket message).
Proof.
  intros s. unfold SendMessage_to_socket. monad_unfold.
  destruct (is_open (socket_ s)) eqn:Ho; cbn [negb]; [|repeat split].
  destruct (write_results (socket_ s)) as [|[ec|] rest];
    cbn; rewrite ?Ho; repeat split.
Qed.

#[local] Hint Resolve core_kept_keeps start_reading_core
  SetMessageHandler_core log_delivered_core SendMessage_to_socket_core
  P_Close : within.

Lemma on_system_error_keeps {A} (a : A) x k :
  on_system_error a x = Some k -> steps_within (keeps P) k.
Proof.
  destruct x as [| | |ec]; try discriminate.
  cbn. intros [= <-]. destruct (is_disconnect ec); within.
Qed.

Lemma send_message_keeps message :
  steps_within (keeps P) (send_message message).
Proof.
  unfold send_message.
  apply within_try_catch;
    [typeclasses eauto|within|apply on_system_error_keeps].
Qed.

#[local] Hint Resolve send_message_keeps : within.

Lemma SendMessage_keeps message : steps_within (keeps P) (SendMessage message).
Proof. unfold SendMessage. within. Qed.

Lemma Run_keeps handler : steps_within (keeps P) (Run handler).
Proof.
  unfold Run, Run_until_sent. within.
Qed.

#[local] Hint Resolve SendMessage_keeps Run_keeps : within.

Lemma caught_keeps {A} (m : M A) :
  steps_within (keeps P) m ->
  steps_within (keeps P)
    (try_catch (m ;; ret None) (fun x => Some (ret (Some x)))).
Proof.
  intros Hm. apply within_try_catch; [typeclasses eauto|within|].
  intros x k [= <-]. within.
Qed.

Lemma run_handler_keeps prog : steps_within (keeps P) (run_handler prog).
Proof.
  induction prog as [|x|k IH|message k IH|state k IH|handler _ k IH
                     |handler _ k IH]; cbn [run_handler]; unfold GetState;
    within; apply caught_keeps; within.
Qed.

Lemma receive_message_keeps rx : steps_within (keeps P) (receive_message rx).
Proof.
  unfold receive_message.
  apply within_try_catch;
    [typeclasses eauto| |apply on_system_error_keeps].
  unfold ReceiveMessage. within.
Qed.

Lemma handle_message_keeps data : steps_within (keeps P) (handle_message data).
Proof.
  pose proof run_handler_keeps. unfold handle_message. within.
Qed.

Lemma provide_remote_pair_keeps pubkey id :
  steps_within (keeps P) (provide_remote_pair pubkey id).
Proof.
  intros s HP. unfold provide_remote_pair, bind at 1, deref_speke.
  destruct (speke_ s) as [e|] eqn:He; [|exact HP].
  destruct (ProvideRemotePublicKeyIdPair pubkey id e) as [failure e'].
  unfold bind, modify.
  assert (HP' : P (set_speke (Some e') s)) by (eapply P_speke; eauto).
  destruct failure; exact HP'.
Qed.

Lemma send_key_confirmation_keeps :
  steps_within (keeps P) send_key_confirmation.
Proof. unfold send_key_confirmation. within. Qed.

#[local] Hint Resolve receive_message_keeps handle_message_keeps
  provide_remote_pair_keeps send_key_confirmation_keeps : within.

Lemma dispatch_keeps message :
  steps_within (keeps P) (dispatch BAD_BEHAVIOR_LIMIT message).
Proof.
  unfold dispatch. destruct message as [|id pubkey|kcd|hmac data]; cbn.
  - within.
  - apply within_try_catch; [typeclasses eauto|within|].
    intros x k. destruct (is_logic_error x); [intros [= <-]; within|].
    destruct (is_runtime_error x); [intros [= <-]; within|discriminate].
  - within.
  - intros s HP. unfold bind at 1, deref_speke.
    destruct (speke_ s) as [e|] eqn:He; [|exact HP].
    unfold bind at 1, lift_engine.
    destruct (ConfirmHmacSignature hmac data e) as [err|[|]]; [exact HP| |].
    + revert s He HP.
      assert (Hm : steps_within (keeps P) (handle_message data ;; ret true))
        by within.
      intros s _ HP. exact (Hm s HP).
    + unfold bind, ret.
      pose proof (P_increase s e He HP) as HP'.
      destruct (increase_bad_behavior_count BAD_BEHAVIOR_LIMIT s)
        as [[[]|x|f] s']; exact HP'.
Qed.

Lemma handle_read_keeps ec rx :
  steps_within (keeps P) (handle_read BAD_BEHAVIOR_LIMIT ec rx).
Proof.
  pose proof dispatch_keeps.
  unfold handle_read. destruct ec as [ec|]; within.
Qed.

Lemma perform_keeps op : steps_within (keeps P) (perform BAD_BEHAVIOR_LIMIT op).
Proof.
  destruct op; cbn [perform];
    auto using handle_read_keeps, SendMessage_keeps, Run_keeps.
  intros s HP. eapply P_core; [|exact HP]. repeat split.
Qed.

Lemma perform_all_keeps ops s :
  P s -> P (perform_all BAD_BEHAVIOR_LIMIT ops s).
Proof.
  revert s. induction ops as [|op ops IH]; intros s HP; [exact HP|].
  cbn [perform_all]. apply IH, perform_keeps, HP.
Qed.

End Invariant.

Section Reachable.
Context `{Primitives}.
Variable BAD_BEHAVIOR_LIMIT : nat.

Lemma session_invariant_core s s' :
  core_kept s s' ->
  session_invariant BAD_BEHAVIOR_LIMIT s ->
  session_invariant BAD_BEHAVIOR_LIMIT s'.
Proof.
  intros (Hc & Ho & He & Hs & Hn).
  unfold session_invariant, well_formed, within_limit.
  now rewrite Hc, Ho, He, Hs, Hn.
Qed.

Lemma session_invariant_Close state :
  steps_within (keeps (session_invariant BAD_BEHAVIOR_LIMIT)) (Close state).
Proof.
  intros s HI. destruct (closed_ s) eqn:Hc.
  - now rewrite Close_closed.
  - rewrite Close_not_closed by assumption. cbn [snd].
    destruct HI as [_ [Hle _]].
    unfold session_invariant, well_formed, within_limit. cbn.
    repeat split; auto.
Qed.

Lemma session_invariant_running s :
  session_invariant BAD_BEHAVIOR_LIMIT s ->
  session_invariant BAD_BEHAVIOR_LIMIT (set_state RUNNING s).
Proof.
  unfold session_invariant, well_formed, within_limit. cbn.
  intros [(Ho & He & _) Hl]. intuition congruence.
Qed.

Lemma well_formed_live s e :
  well_formed s -> speke_ s = Some e -> closed_ s = false.
Proof.
  intros (_ & He & _) Hs. destruct (closed_ s); [|reflexivity].
  destruct He as [_ He]. rewrite He in Hs by reflexivity. discriminate.
Qed.

Lemma session_invariant_speke s e e' :
  speke_ s = Some e ->
  session_invariant BAD_BEHAVIOR_LIMIT s ->
  session_invariant BAD_BEHAVIOR_LIMIT (set_speke (Some e') s).
Proof.
  intros Hs [Hwf Hl]. pose proof (well_formed_live s e Hwf Hs) as Hc.
  destruct Hwf as (Ho & He & Hst). destruct Hl as [Hle Hreach].
  unfold session_invariant, well_formed, within_limit. cbn.
  rewrite Hc in *. intuition congruence.
Qed.

Lemma session_invariant_increase s e :
  speke_ s = Some e ->
  session_invariant BAD_BEHAVIOR_LIMIT s ->
  session_invariant BAD_BEHAVIOR_LIMIT
    (snd (increase_bad_behavior_count BAD_BEHAVIOR_LIMIT s)).
Proof.
  intros Hs [Hwf Hl]. pose proof (well_formed_live s e Hwf Hs) as Hc.
  destruct Hwf as (Ho & He & Hst). destruct Hl as [Hle Hreach].
  unfold increase_bad_behavior_count, bind, get, modify, ret.
  assert (Hroom : (bad_behavior_count_ s = 0
                   \/ bad_behavior_count_ s < BAD_BEHAVIOR_LIMIT)%nat).
  { destruct (bad_behavior_count_ s) as [|n]; [now left|right].
    destruct (Nat.lt_ge_cases (S n) BAD_BEHAVIOR_LIMIT) as [|Hge]; [easy|].
    rewrite Hreach in Hc by lia. discriminate. }
  destruct (Nat.leb_spec BAD_BEHAVIOR_LIMIT (S (bad_behavior_count_ s)))
    as [Hlim|Hlim].
  - rewrite Close_not_closed by exact Hc.
    unfold session_invariant, well_formed, within_limit. cbn.
    repeat split; auto; lia.
  - unfold session_invariant, well_formed, within_limit. cbn.
    repeat split; try tauto; lia.
Qed.

(** The invariant holds of a session as constructed and after any run of
    operations on it. *)
Lemma session_invariant_reachable socket speke s0 ops :
  SpekeSession_new socket speke = Returned s0 ->
  session_invariant BAD_BEHAVIOR_LIMIT
    (perform_all BAD_BEHAVIOR_LIMIT ops s0).
Proof.
  intros Hnew.
  apply (perform_all_keeps BAD_BEHAVIOR_LIMIT
           (session_invariant BAD_BEHAVIOR_LIMIT)
           session_invariant_core session_invariant_Close
           session_invariant_running session_invariant_speke
           session_invariant_increase).
  unfold SpekeSession_new in Hnew.
  destruct (is_open socket) eqn:Ho; cbn [negb] in Hnew; [|discriminate].
  destruct speke as [e|]; [|discriminate].
  injection Hnew as <-.
  unfold session_invariant, well_formed, within_limit. cbn. rewrite Ho.
  repeat split; try discriminate; lia.
Qed.

(** X4. On a session as constructed and after any run of operations on
    it, the latch, the socket and the engine agree: the session is closed
    exactly when its socket is closed, and exactly when its engine is
    released. *)
Theorem closed_socket_engine_agree
    (socket : Socket) (speke : option SPEKE) (s0 : SpekeSession)
    (ops : list operation) :
  SpekeSession_new socket speke = Returned s0 ->
  let s := perform_all BAD_BEHAVIOR_LIMIT ops s0 in
  (closed_ s = true <-> is_open (socket_ s) = false) /\
  (closed_ s = true <-> speke_ s = None).
Proof.
  intros Hnew. cbn zeta.
  destruct (session_invariant_reachable socket speke s0 ops Hnew)
    as [(Ho & He & _) _].
  split; [|tauto]. rewrite Ho.
  destruct (is_open _); cbn; split; congruence.
Qed.

(** X5. On a session as constructed and after any run of operations on
    it, a [STOPPED_*] state is the state of a session that has been
    closed: its socket is closed and its engine released. *)
Theorem stopped_state_means_closed
    (socket : Socket) (speke : option SPEKE) (s0 : SpekeSession)
    (ops : list operation) :
  SpekeSession_new socket speke = Returned s0 ->
  let s := perform_all BAD_BEHAVIOR_LIMIT ops s0 in
  is_stopped (state_ s) = true -> released s.
Proof.
  intros Hnew. cbn zeta. intros Hstop.
  destruct (session_invariant_reachable socket speke s0 ops Hnew)
    as [(Ho & He & Hst) _].
  specialize (Hst Hstop). unfold released.
  rewrite Hst in Ho. repeat split; [assumption|tauto|].
  destruct (is_open _); [discriminate|reflexivity].
Qed.

(** X6. On a session as constructed and after any run of operations on
    it, the bad-behaviour counter never exceeds the limit (one, if the
    limit is zero), and a session whose counter has reached the limit is
    closed. *)
Theorem bad_behavior_count_bounded
    (socket : Socket) (speke : option SPEKE) (s0 : SpekeSession)
    (ops : list operation) :
  SpekeSession_new socket speke = Returned s0 ->
  let s := perform_all BAD_BEHAVIOR_LIMIT ops s0 in
  (bad_behavior_count_ s <= Nat.max 1 BAD_BEHAVIOR_LIMIT)%nat /\
  ((0 < bad_behavior_count_ s)%nat ->
   (BAD_BEHAVIOR_LIMIT <= bad_behavior_count_ s)%nat ->
   closed_ s = true).
Proof.
  intros Hnew. cbn zeta.
  now destruct (session_invariant_reachable socket speke s0 ops Hnew)
    as [_ Hl].
Qed.

Lemma past_idle_core s s' : core_kept s s' -> past_idle s -> past_idle s'.
Proof.
  intros (_ & _ & He & Hs & _). unfold past_idle. now rewrite He, Hs.
Qed.

Lemma past_idle_Close state : steps_within (keeps past_idle) (Close state).
Proof.
  intros s HP. destruct (closed_ s) eqn:Hc.
  - now rewrite Close_closed.
  - rewrite Close_not_closed by assumption. now right.
Qed.

Lemma past_idle_running s : past_idle s -> past_idle (set_state RUNNING s).
Proof. intros _. left. discriminate. Qed.

Lemma past_idle_speke s e e' :
  speke_ s = Some e -> past_idle s -> past_idle (set_speke (Some e') s).
Proof. intros He [Hs|Hn]; [now left|congruence]. Qed.

Lemma past_idle_increase s e :
  speke_ s = Some e ->
  past_idle s ->
  past_idle (snd (increase_bad_behavior_count BAD_BEHAVIOR_LIMIT s)).
Proof.
  intros He [Hs|Hn]; [|congruence].
  unfold increase_bad_behavior_count, bind, get, modify, ret.
  destruct (BAD_BEHAVIOR_LIMIT <=? S (bad_behavior_count_ s))%nat;
    [|now left].
  apply past_idle_Close. now left.
Qed.

Lemma Run_returned_running handler s :
  fst (Run handler s) = Returned tt -> state_ (snd (Run handler s)) = RUNNING.
Proof.
  unfold Run, bind, modify.
  destruct (Run_until_sent handler s) as [[[]|x|f] s']; cbn;
    [reflexivity|discriminate|discriminate].
Qed.

Lemma Run_past_idle handler s :
  past_idle s ->
  Run handler s = (Thrown bad_state, s) \/
  fst (Run handler s) = Crashed NullDereference.
Proof.
  intros HP. unfold Run, Run_until_sent, SetMessageHandler. monad_unfold.
  destruct (state_ s) eqn:Hs; try (left; reflexivity).
  destruct HP as [HP|HP]; [congruence|].
  right. cbn. now rewrite HP.
Qed.

(** X7. [Run] returns at most once in the life of a session: after a
    call of [Run] that returned, and whatever operations follow, another
    call of [Run] does not return; it throws the logic error of a session
    that is not idle and leaves the session as it was, or it runs into the
    released engine. *)
Theorem Run_returns_at_most_once
    (s : SpekeSession) (handler handler' : MessageHandler)
    (ops : list operation) :
  fst (Run handler s) = Returned tt ->
  let s' := perform_all BAD_BEHAVIOR_LIMIT ops (snd (Run handler s)) in
  Run handler' s' = (Thrown bad_state, s') \/
  fst (Run handler' s') = Crashed NullDereference.
Proof.
  intros Hret. cbn zeta. apply Run_past_idle.
  apply (perform_all_keeps BAD_BEHAVIOR_LIMIT past_idle
           past_idle_core past_idle_Close past_idle_running
           past_idle_speke past_idle_increase).
  left. rewrite (Run_returned_running handler s Hret). discriminate.
Qed.

End Reachable.

(** ** Single operations *)

Section Operations.
Context `{Primitives}.
Variable BAD_BEHAVIOR_LIMIT : nat.

Lemma same_but_handler_refl s : same_but_handler s s.
Proof. reflexivity. Qed.

Lemma perform_inert op s :
  released s ->
  same_but_handler s (snd (perform BAD_BEHAVIOR_LIMIT op s)) /\
  released (snd (perform BAD_BEHAVIOR_LIMIT op s)).
Proof.
  intros Hr. split; [|apply perform_released, Hr].
  destruct Hr as (Hc & He & Ho).
  destruct op as [state|[ec|] rx|message|handler|handler]; cbn [perform].
  - rewrite Close_closed by assumption. apply same_but_handler_refl.
  - unfold handle_read. rewrite Close_closed by assumption.
    apply same_but_handler_refl.
  - unfold handle_read, receive_message, ReceiveMessage.
    monad_unfold. rewrite Ho. apply same_but_handler_refl.
  - unfold SendMessage. monad_unfold.
    destruct (state_ s) eqn:Hs; cbn; rewrite ?He; cbn;
      apply same_but_handler_refl.
  - destruct s. reflexivity.
  - unfold Run, Run_until_sent, SetMessageHandler. monad_unfold.
    destruct (state_ s) eqn:Hs; cbn; rewrite ?He; cbn;
      try apply same_but_handler_refl.
    destruct s. reflexivity.
Qed.

Lemma perform_all_inert ops s :
  released s ->
  same_but_handler s (perform_all BAD_BEHAVIOR_LIMIT ops s) /\
  released (perform_all BAD_BEHAVIOR_LIMIT ops s).
Proof.
  revert s. induction ops as [|op ops IH]; intros s Hr.
  - split; [reflexivity|exact Hr].
  - cbn [perform_all]. destruct (perform_inert op s Hr) as [Hs Hr'].
    destruct (IH _ Hr') as [Hs' Hr''].
    split; [etransitivity; eassumption|exact Hr''].
Qed.

(** X8. A closed session is inert: once the latch is set and the engine
    and the socket are released, no run of operations writes a frame,
    awaits a read, calls the handler, moves the counter or changes the
    state; the one thing an operation can still change is the handler
    that is installed. *)
Theorem released_session_inert (s : SpekeSession) (ops : list operation) :
  released s ->
  let s' := perform_all BAD_BEHAVIOR_LIMIT ops s in
  socket_ s' = socket_ s /\ speke_ s' = None /\ closed_ s' = true /\
  state_ s' = state_ s /\
  bad_behavior_count_ s' = bad_behavior_count_ s /\
  delivered s' = delivered s.
Proof.
  intros Hr. cbn zeta.
  destruct (perform_all_inert ops s Hr) as [Hs _].
  destruct Hr as (Hc & He & _).
  unfold same_but_handler in Hs. rewrite Hs. cbn. repeat split; assumption.
Qed.

Lemma Run_until_sent_returned handler s :
  hd None (write_results (socket_ s)) = None ->
  fst (Run_until_sent handler s) = Returned tt ->
  state_ (snd (Run_until_sent handler s)) = IDLE.
Proof.
  intros Hw. remember (Run_until_sent handler s) as out eqn:Hout.
  unfold Run_until_sent, SetMessageHandler, start_reading in Hout.
  unfold bind at 1 2, get in Hout.
  destruct (state_ s) eqn:Hs; try (subst out; discriminate).
  unfold bind, modify, deref_speke in Hout. session_simpl.
  destruct (speke_ s) as [e|]; [|subst out; discriminate].
  destruct (is_open (socket_ s)) eqn:Ho.
  - rewrite send_message_written in Hout by (session_simpl; assumption).
    subst out. intros _. exact Hs.
  - unfold send_message, SendMessage_to_socket, try_catch in Hout.
    monad_unfold. session_simpl. rewrite Ho in Hout.
    subst out. discriminate.
Qed.

(** C3. The [STOPPED_*] states are terminal.  On a session as
    constructed and after any run of operations on it, once the state is
    a [STOPPED_*] one it stays that state over any further run of
    operations: a later [Close], whatever its reason, returns with the
    session as it is, and [Run] throws the logic error and leaves it as it
    is.  And the last statement of [Run] does not undo a stop either: when
    the write of the [InitData] frame does not throw, as the asynchronous
    write of the static [SendMessage] does not, the state that
    [state_ = RUNNING] replaces is [IDLE]. *)
Theorem stopped_states_terminal
    (socket : Socket) (speke : option SPEKE) (s0 : SpekeSession)
    (before later : list operation) (handler : MessageHandler) :
  SpekeSession_new socket speke = Returned s0 ->
  let s := perform_all BAD_BEHAVIOR_LIMIT before s0 in
  (is_stopped (state_ s) = true ->
   state_ (perform_all BAD_BEHAVIOR_LIMIT later s) = state_ s /\
   (forall reason, Close reason s = (Returned tt, s)) /\
   Run handler s = (Thrown bad_state, s)) /\
  (forall s',
      hd None (write_results (socket_ s')) = None ->
      fst (Run_until_sent handler s') = Returned tt ->
      state_ (snd (Run_until_sent handler s')) = IDLE /\
      state_ (snd (Run handler s')) = RUNNING).
Proof.
  intros Hnew. cbn zeta.
  set (s := perform_all BAD_BEHAVIOR_LIMIT before s0).
  pose proof (session_invariant_reachable BAD_BEHAVIOR_LIMIT socket speke s0
                before Hnew) as [(Ho & He & Hst) _].
  fold s in Ho, He, Hst. split.
  - intros Hstop. pose proof (Hst Hstop) as Hc.
    assert (Hr : released s).
    { split; [exact Hc|]. split; [now apply He|].
      rewrite Hc in Ho. now destruct (is_open (socket_ s)). }
    split; [|split].
    + destruct (perform_all_inert later s Hr) as [Hs _].
      unfold same_but_handler in Hs. now rewrite Hs.
    + intros reason. now apply Close_closed.
    + unfold Run, Run_until_sent, bind, get, throw.
      destruct (state_ s); try discriminate; reflexivity.
  - intros s' Hw Hret.
    pose proof (Run_until_sent_returned handler s' Hw Hret) as Hidle.
    split; [exact Hidle|]. unfold Run, bind.
    destruct (Run_until_sent handler s') as [[[]|x|f] s2];
      try discriminate; reflexivity.
Qed.

(** X9. A received [KeyConfirmation] frame.  If the engine confirms the
    data, the session is as it was but for the next read it awaits.  If
    the engine rejects it, the session closes with
    [STOPPED_KEY_CONFIRMATION_FAILED], and no further read is awaited. *)
Theorem key_confirmation_frame
    (s : SpekeSession) (e : SPEKE) (parsed : bool) (kcd : Bytes) :
  is_open (socket_ s) = true ->
  speke_ s = Some e ->
  let out :=
    handle_read BAD_BEHAVIOR_LIMIT None
      (ReadBody parsed (KeyConfirmation kcd)) s in
  (ConfirmKey kcd e = inr true -> out = (Returned tt, read_scheduled s)) /\
  (ConfirmKey kcd e = inr false ->
   closed_ s = false ->
   out = (Returned tt, closed_with STOPPED_KEY_CONFIRMATION_FAILED s)).
Proof.
  intros Ho He. cbn zeta. rewrite handle_read_body by assumption.
  unfold dispatch. cbn [has_signed_data has_init_data has_key_confirmation].
  split; intros Hk.
  - unfold bind, deref_speke, lift_engine, ret. rewrite He, Hk. reflexivity.
  - intros Hc. unfold bind at 1 2 3, deref_speke, lift_engine, ret at 1.
    rewrite He, Hk. cbn [negb]. rewrite Close_then_ret.
    now rewrite Close_not_closed.
Qed.

#[local] Hint Resolve Close_keeps_tally start_reading_keeps_tally
  SetMessageHandler_keeps_tally send_message_keeps_tally
  receive_message_keeps_tally provide_remote_pair_keeps_tally
  send_key_confirmation_keeps_tally : within.

Lemma dispatch_unsigned_keeps_tally message :
  has_signed_data message = false ->
  steps_within tally_kept (dispatch BAD_BEHAVIOR_LIMIT message).
Proof.
  unfold dispatch. destruct message as [|id pubkey|kcd|hmac data]; cbn;
    intros Hm; try discriminate.
  - within.
  - apply within_try_catch; [typeclasses eauto|within|].
    intros x k. destruct (is_logic_error x); [intros [= <-]; within|].
    destruct (is_runtime_error x); [intros [= <-]; within|discriminate].
  - within.
Qed.

Lemma handle_read_unsigned_keeps_tally message :
  has_signed_data message = false ->
  steps_within tally_kept
    (do proceed <- dispatch BAD_BEHAVIOR_LIMIT message;
     if proceed then start_reading else ret tt).
Proof.
  intros Hm. pose proof (dispatch_unsigned_keeps_tally message Hm). within.
Qed.

Lemma receive_message_not_open rx s :
  is_open (socket_ s) = false ->
  receive_message rx s = (Thrown invalid_argument, s).
Proof.
  intros Ho. unfold receive_message, ReceiveMessage. monad_unfold.
  now rewrite Ho.
Qed.

(** X10. The handler is given authenticated payloads only: one call of
    [handle_read] either leaves the record of deliveries as it was, or
    adds to it the payload of a received [SignedData] frame whose
    signature the engine has confirmed, and nothing else. *)
Theorem handler_sees_only_confirmed_payloads
    (s : SpekeSession) (ec : option error_code) (rx : received) :
  let s' := snd (handle_read BAD_BEHAVIOR_LIMIT ec rx s) in
  delivered s' = delivered s \/
  exists e parsed hmac data,
    ec = None /\ rx = ReadBody parsed (SignedData hmac data) /\
    speke_ s = Some e /\
    ConfirmHmacSignature hmac data e = inr true /\
    delivered s' = delivered s ++ [data].
Proof.
  cbn zeta. destruct ec as [ec|].
  { left. unfold handle_read. apply Close_keeps_tally. }
  destruct (is_open (socket_ s)) eqn:Ho.
  2:{ left. unfold handle_read, bind.
      now rewrite receive_message_not_open. }
  destruct rx as [ec|parsed message].
  { left. unfold handle_read. unfold bind at 1.
    rewrite receive_message_failed by assumption.
    transitivity (delivered (snd (Close (stopped_by ec) s)));
      apply Close_keeps_tally. }
  rewrite handle_read_body by assumption.
  destruct (has_signed_data message) eqn:Hm.
  2:{ left. now apply handle_read_unsigned_keeps_tally. }
  destruct message as [| | |hmac data]; try discriminate.
  destruct (speke_ s) as [e|] eqn:He.
  2:{ left. unfold dispatch, bind, deref_speke. cbn. now rewrite He. }
  destruct (ConfirmHmacSignature hmac data e) as [err|[|]] eqn:Hv.
  - left. unfold dispatch, bind, deref_speke, lift_engine, throw. cbn.
    now rewrite He, Hv.
  - destruct (message_handler_ s) as [handler|] eqn:Hh.
    + right. exists e, parsed, hmac, data. repeat split; try assumption.
      unfold bind at 1.
      rewrite (dispatch_signed_valid _ s e handler hmac data)
        by assumption.
      unfold bind, ret, start_reading, modify.
      pose proof (run_handler_keeps_tally (handler data)
                    (log_delivered data s)) as [_ Hd].
      destruct (run_handler (handler data) (log_delivered data s))
        as [[[]|x|f] s2]; session_simpl; now rewrite Hd.
    + left. unfold dispatch, handle_message, bind, deref_speke, lift_engine,
        get, crash, ret. cbn. now rewrite He, Hv, Hh.
  - left. unfold bind at 1.
    rewrite (dispatch_signed_invalid _ s e hmac data) by assumption.
    unfold increase_bad_behavior_count, bind, get, modify, ret.
    destruct (BAD_BEHAVIOR_LIMIT <=? S (bad_behavior_count_ s))%nat.
    + destruct (closed_ s) eqn:Hc.
      * now rewrite Close_closed by exact Hc.
      * now rewrite Close_not_closed by exact Hc.
    + reflexivity.
Qed.



(** X12. [Run] outside the state [IDLE] throws a logic error and leaves
    the session as it was, the handler it was given not installed.  On an
    idle session whose first write goes through, it installs the handler,
    awaits a read, writes one [InitData] frame carrying the engine's id
    and public key, and ends in the state [RUNNING]. *)
Theorem Run_outcomes (s : SpekeSession) (handler : MessageHandler) :
  (state_ s <> IDLE -> Run handler s = (Thrown bad_state, s)) /\
  (forall e,
      state_ s = IDLE ->
      speke_ s = Some e ->
      is_open (socket_ s) = true ->
      hd None (write_results (socket_ s)) = None ->
      Run handler s
      = (Returned tt,
         mkSession
           (mkSocket true (tl (write_results (socket_ s)))
              (written (socket_ s) ++ [InitData (GetId e) (GetPublicKey e)])
              (S (read_waits (socket_ s))))
           (Some e) RUNNING (closed_ s) (bad_behavior_count_ s)
           (Some handler) (delivered s))).
Proof.
  split.
  - intros Hs. unfold Run, Run_until_sent, bind, get, throw.
    destruct (state_ s); congruence.
  - intros e Hs He Ho Hw.
    unfold Run, Run_until_sent, SetMessageHandler, start_reading.
    unfold bind at 1 2, get. rewrite Hs.
    unfold bind at 1 2 3, modify, deref_speke. session_simpl. rewrite He.
    rewrite send_message_written by (session_simpl; assumption).
    unfold modify. session_simpl. now rewrite Ho.
Qed.

Lemma Close_returns state s : fst (Close state s) = Returned tt.
Proof.
  destruct (closed_ s) eqn:Hc;
    now rewrite ?Close_closed, ?Close_not_closed by exact Hc.
Qed.

(** X13. What [handle_read] absorbs.  On an open socket with the engine
    in place, [handle_read] returns to the executor, without an
    exception, after a failed wait, after a failed read, on an envelope
    with no variant set, on an [InitData] frame whatever the engine makes
    of it and whatever becomes of the write of the answer, on a
    [KeyConfirmation] frame that the engine confirms or rejects, and on a
    [SignedData] frame whose signature the engine rejects. *)
Theorem handle_read_absorbs
    (s : SpekeSession) (e : SPEKE) (parsed : bool) (ec : error_code)
    (id : string) (pubkey kcd hmac data : Bytes) :
  is_open (socket_ s) = true ->
  speke_ s = Some e ->
  let returns rx ec :=
    fst (handle_read BAD_BEHAVIOR_LIMIT ec rx s) = Returned tt in
  (forall rx, returns rx (Some ec)) /\
  returns (ReadFailed ec) None /\
  returns (ReadBody parsed NotSet) None /\
  returns (ReadBody parsed (InitData id pubkey)) None /\
  (forall confirmed,
      ConfirmKey kcd e = inr confirmed ->
      returns (ReadBody parsed (KeyConfirmation kcd)) None) /\
  (ConfirmHmacSignature hmac data e = inr false ->
   returns (ReadBody parsed (SignedData hmac data)) None).
Proof.
  intros Ho He. cbn zeta.
  split; [intros rx; apply Close_returns|].
  split.
  { unfold handle_read. unfold bind at 1.
    rewrite receive_message_failed by assumption. apply Close_returns. }
  split; [now rewrite handle_read_body|].
  split.
  { rewrite handle_read_body by assumption. unfold bind at 1.
    destruct (ProvideRemotePublicKeyIdPair pubkey id e)
      as [failure e'] eqn:Hp.
    rewrite (dispatch_init_data _ s e id pubkey failure e' He Hp).
    destruct failure as [[| |]|]; cbn [is_logic_error is_runtime_error];
      try reflexivity.
    - now rewrite Close_then_ret.
    - unfold try_catch, bind at 1, send_key_confirmation, bind at 1 2,
        deref_speke, lift_engine. cbn [speke_ set_speke].
      destruct (GetKeyConfirmationData e') as [err|confirmation].
      { unfold throw. destruct err; cbn [is_logic_error is_runtime_error];
          try reflexivity. now rewrite Close_then_ret. }
      pose proof (send_message_open (KeyConfirmation confirmation)
                    (set_speke (Some e') s) Ho) as Hs.
      unfold ret at 1.
      destruct (send_message _ _) as [[[]|x|f] s2]; cbn in Hs;
        try discriminate. reflexivity. }
  split.
  - intros confirmed Hk. rewrite handle_read_body by assumption.
    unfold dispatch.
    cbn [has_signed_data has_init_data has_key_confirmation].
    unfold bind at 1 2 3, deref_speke, lift_engine, ret at 1.
    rewrite He, Hk. destruct confirmed; cbn [negb]; [reflexivity|].
    now rewrite Close_then_ret.
  - intros Hv. rewrite handle_read_body by assumption. unfold bind at 1.
    rewrite (dispatch_signed_invalid _ s e hmac data) by assumption.
    unfold increase_bad_behavior_count, bind, get, modify, ret.
    destruct (BAD_BEHAVIOR_LIMIT <=? S (bad_behavior_count_ s))%nat;
      [|reflexivity].
    pose proof (Close_returns STOPPED_PEER_BAD_BEHAVIOR
                  (set_bad_behavior_count (S (bad_behavior_count_ s)) s))
      as Hr.
    destruct (Close _ _) as [[[]|x|f] s2]; cbn in Hr; try discriminate.
    reflexivity.
Qed.

End Operations.

(** ** The further statements on the concrete setting *)

Lemma closed_socket_engine_agree_witness :
  SpekeSession_new demo_socket (Some demo_alice) = Returned demo_fresh /\
  closed_ (perform_all (H := demo_primitives) demo_limit demo_life demo_fresh)
  = true /\
  is_open (socket_ (perform_all (H := demo_primitives) demo_limit demo_life
                      demo_fresh)) = false /\
  speke_ (perform_all (H := demo_primitives) demo_limit demo_life demo_fresh)
  = None.
Proof.
  split; [reflexivity|].
  pose proof (closed_socket_engine_agree (H := demo_primitives) demo_limit
                demo_socket (Some demo_alice) demo_fresh demo_life eq_refl)
    as [Hsock Heng].
  assert (Hc : closed_ (perform_all (H := demo_primitives) demo_limit
                          demo_life demo_fresh) = true)
    by (vm_compute; reflexivity).
  split; [exact Hc|]. split; [apply Hsock, Hc|apply Heng, Hc].
Defined.

Lemma stopped_state_means_closed_witness :
  SpekeSession_new demo_socket (Some demo_alice) = Returned demo_fresh /\
  state_ (perform_all (H := demo_primitives) demo_limit demo_life demo_fresh)
  = STOPPED_PEER_BAD_BEHAVIOR /\
  released (perform_all (H := demo_primitives) demo_limit demo_life demo_fresh).
Proof.
  split; [reflexivity|].
  assert (Hs : state_ (perform_all (H := demo_primitives) demo_limit
                         demo_life demo_fresh) = STOPPED_PEER_BAD_BEHAVIOR)
    by (vm_compute; reflexivity).
  split; [exact Hs|].
  apply (stopped_state_means_closed (H := demo_primitives) demo_limit
           demo_socket (Some demo_alice) demo_fresh demo_life eq_refl).
  rewrite Hs. reflexivity.
Defined.

Lemma bad_behavior_count_bounded_witness :
  SpekeSession_new demo_socket (Some demo_alice) = Returned demo_fresh /\
  bad_behavior_count_
    (perform_all (H := demo_primitives) demo_limit demo_life demo_fresh)
  = 3%nat /\
  (bad_behavior_count_
     (perform_all (H := demo_primitives) demo_limit
        (demo_life ++ [demo_bad_frame; demo_bad_frame]) demo_fresh)
   <= Nat.max 1 demo_limit)%nat /\
  closed_ (perform_all (H := demo_primitives) demo_limit demo_life demo_fresh)
  = true.
Proof.
  split; [reflexivity|].
  assert (Hn : bad_behavior_count_
                 (perform_all (H := demo_primitives) demo_limit demo_life
                    demo_fresh) = 3%nat)
    by (vm_compute; reflexivity).
  split; [exact Hn|]. split.
  - exact (proj1 (bad_behavior_count_bounded (H := demo_primitives)
                    demo_limit demo_socket (Some demo_alice) demo_fresh
                    (demo_life ++ [demo_bad_frame; demo_bad_frame]) eq_refl)).
  - apply (proj2 (bad_behavior_count_bounded (H := demo_primitives)
                    demo_limit demo_socket (Some demo_alice) demo_fresh
                    demo_life eq_refl));
      rewrite Hn; unfold demo_limit; lia.
Defined.

Lemma Run_returns_at_most_once_witness :
  fst (Run demo_echo demo_fresh) = Returned tt /\
  fst (Run demo_echo
         (perform_all (H := demo_primitives) demo_limit
            [OpSendMessage [x01]; OpClose IDLE]
            (snd (Run demo_echo demo_fresh))))
  <> Returned tt.
Proof.
  split; [reflexivity|].
  pose proof (Run_returns_at_most_once (H := demo_primitives) demo_limit
                demo_fresh demo_echo demo_echo
                [OpSendMessage [x01]; OpClose IDLE] eq_refl) as [Hthrow|Hcrash].
  - rewrite Hthrow. discriminate.
  - rewrite Hcrash. discriminate.
Defined.

Lemma released_session_inert_witness :
  released (snd (Close STOPPED (demo_running demo_alice_ready))) /\
  socket_
    (perform_all (H := demo_primitives) demo_limit
       [OpSendMessage [x01]; demo_bad_frame; OpRun demo_echo;
        OpHandleRead (Some operation_aborted) (ReadFailed eof)]
       (snd (Close STOPPED (demo_running demo_alice_ready))))
  = socket_ (snd (Close STOPPED (demo_running demo_alice_ready))) /\
  state_
    (perform_all (H := demo_primitives) demo_limit
       [OpSendMessage [x01]; demo_bad_frame; OpRun demo_echo;
        OpHandleRead (Some operation_aborted) (ReadFailed eof)]
       (snd (Close STOPPED (demo_running demo_alice_ready))))
  = STOPPED.
Proof.
  assert (Hr : released (snd (Close STOPPED (demo_running demo_alice_ready))))
    by (repeat split).
  split; [exact Hr|].
  pose proof (released_session_inert (H := demo_primitives) demo_limit
                (snd (Close STOPPED (demo_running demo_alice_ready)))
                [OpSendMessage [x01]; demo_bad_frame; OpRun demo_echo;
                 OpHandleRead (Some operation_aborted) (ReadFailed eof)] Hr)
    as (Hsock & _ & _ & Hstate & _).
  split; [exact Hsock|exact Hstate].
Defined.

Lemma stopped_states_terminal_witness :
  SpekeSession_new demo_socket (Some demo_alice) = Returned demo_fresh /\
  state_ (perform_all (H := demo_primitives) demo_limit demo_life demo_fresh)
  = STOPPED_PEER_BAD_BEHAVIOR /\
  state_
    (perform_all (H := demo_primitives) demo_limit
       [OpClose STOPPED; OpRun demo_echo;
        OpHandleRead (Some eof) (ReadFailed eof);
        OpHandleRead None (ReadBody true (KeyConfirmation []));
        OpSendMessage [x01]; OpClose STOPPED_ERROR]
       (perform_all (H := demo_primitives) demo_limit demo_life demo_fresh))
  = STOPPED_PEER_BAD_BEHAVIOR /\
  hd None (write_results (socket_ (demo_idle [None]))) = None /\
  fst (Run_until_sent demo_echo (demo_idle [None])) = Returned tt /\
  state_ (snd (Run_until_sent demo_echo (demo_idle [None]))) = IDLE /\
  state_ (snd (Run demo_echo (demo_idle [None]))) = RUNNING.
Proof.
  pose proof (stopped_states_terminal (H := demo_primitives) demo_limit
                demo_socket (Some demo_alice) demo_fresh demo_life
                [OpClose STOPPED; OpRun demo_echo;
                 OpHandleRead (Some eof) (ReadFailed eof);
                 OpHandleRead None (ReadBody true (KeyConfirmation []));
                 OpSendMessage [x01]; OpClose STOPPED_ERROR]
                demo_echo eq_refl) as [Hstopped Hrun].
  split; [reflexivity|]. split; [vm_compute; reflexivity|]. split.
  - refine (eq_trans (proj1 (Hstopped _)) _); vm_compute; reflexivity.
  - split; [reflexivity|]. split; [vm_compute; reflexivity|].
    apply (Hrun (demo_idle [None])); vm_compute; reflexivity.
Defined.

Lemma key_confirmation_frame_witness :
  is_open (socket_ (demo_running demo_alice_ready)) = true /\
  speke_ (demo_running demo_alice_ready) = Some demo_alice_ready /\
  ConfirmKey (H := demo_primitives)
    (key_confirmation_data_ demo_bob_ready) demo_alice_ready = inr true /\
  handle_read (H := demo_primitives) demo_limit None
    (ReadBody true (KeyConfirmation (key_confirmation_data_ demo_bob_ready)))
    (demo_running demo_alice_ready)
  = (Returned tt, read_scheduled (demo_running demo_alice_ready)) /\
  ConfirmKey (H := demo_primitives) [x00] demo_alice_ready = inr false /\
  handle_read (H := demo_primitives) demo_limit None
    (ReadBody true (KeyConfirmation [x00])) (demo_running demo_alice_ready)
  = (Returned tt,
     closed_with STOPPED_KEY_CONFIRMATION_FAILED
       (demo_running demo_alice_ready)).
Proof.
  split; [reflexivity|]. split; [reflexivity|].
  assert (Hok : ConfirmKey (H := demo_primitives)
                  (key_confirmation_data_ demo_bob_ready) demo_alice_ready
                = inr true) by (vm_compute; reflexivity).
  assert (Hbad : ConfirmKey (H := demo_primitives) [x00] demo_alice_ready
                 = inr false) by (vm_compute; reflexivity).
  split; [exact Hok|]. split.
  - exact (proj1 (key_confirmation_frame (H := demo_primitives) demo_limit
                    (demo_running demo_alice_ready) demo_alice_ready true
                    (key_confirmation_data_ demo_bob_ready) eq_refl eq_refl)
             Hok).
  - split; [exact Hbad|].
    exact (proj2 (key_confirmation_frame (H := demo_primitives) demo_limit
                    (demo_running demo_alice_ready) demo_alice_ready true
                    [x00] eq_refl eq_refl) Hbad eq_refl).
Defined.


Lemma Run_outcomes_witness :
  Run demo_echo (demo_running demo_alice)
  = (Thrown bad_state, demo_running demo_alice) /\
  state_ (snd (Run demo_echo demo_fresh)) = RUNNING /\
  written (socket_ (snd (Run demo_echo demo_fresh)))
  = [InitData "alice" [x08]].
Proof.
  split.
  - apply (proj1 (Run_outcomes (demo_running demo_alice) demo_echo)).
    discriminate.
  - rewrite (proj2 (Run_outcomes demo_fresh demo_echo)
               demo_alice eq_refl eq_refl eq_refl eq_refl).
    split; reflexivity.
Defined.

Lemma handle_read_absorbs_witness :
  is_open (socket_ (demo_running demo_alice)) = true /\
  speke_ (demo_running demo_alice) = Some demo_alice /\
  fst (handle_read (H := demo_primitives) demo_limit None
         (ReadBody true (InitData "bob-1" [x01])) (demo_running demo_alice))
  = Returned tt /\
  fst (handle_read (H := demo_primitives) demo_limit (Some timed_out)
         (ReadFailed eof) (demo_running demo_alice))
  = Returned tt.
Proof.
  split; [reflexivity|]. split; [reflexivity|].
  pose proof (handle_read_absorbs (H := demo_primitives) demo_limit
                (demo_running demo_alice) demo_alice true timed_out
                "bob-1" [x01] [] [] [] eq_refl eq_refl)
    as (Hwait & _ & _ & Hinit & _).
  split; [exact Hinit|exact (Hwait (ReadFailed eof))].
Defined.

(** ** Reads are awaited one at a time *)

#[local] Instance calm_preorder limit : PreOrder (calm limit).
Proof.
  split.
  - intros s HI. split; [exact HI|lia].
  - intros s1 s2 s3 H12 H23 HI.
    destruct (H12 HI) as [HI2 Hle2]. destruct (H23 HI2) as [HI3 Hle3].
    split; [exact HI3|lia].
Qed.

#[local] Instance waits_kept_preorder : PreOrder waits_kept.
Proof.
  split; [intros s; reflexivity|].
  intros s1 s2 s3 H12 H23. unfold waits_kept in *. congruence.
Qed.

Section Sequential.
Context `{Primitives}.
Variable BAD_BEHAVIOR_LIMIT : nat.

Lemma invariant_keeps_perform_parts :
  (forall state,
      steps_within (keeps (session_invariant BAD_BEHAVIOR_LIMIT))
        (Close state)) /\
  (forall handler,
      steps_within (keeps (session_invariant BAD_BEHAVIOR_LIMIT))
        (Run handler)) /\
  (forall pubkey id,
      steps_within (keeps (session_invariant BAD_BEHAVIOR_LIMIT))
        (provide_remote_pair pubkey id)).
Proof.
  split; [apply session_invariant_Close|]. split.
  - intros handler.
    apply (Run_keeps _ (session_invariant_core BAD_BEHAVIOR_LIMIT)
             (session_invariant_Close BAD_BEHAVIOR_LIMIT)
             (session_invariant_running BAD_BEHAVIOR_LIMIT)).
  - intros pubkey id.
    apply (provide_remote_pair_keeps _
             (session_invariant_speke BAD_BEHAVIOR_LIMIT)).
Qed.

(** A step that leaves the core fields and the awaited reads alone. *)
Lemma quiet_calm {A} (m : M A) :
  steps_within core_kept m ->
  (forall s, read_waits (socket_ (snd (m s))) = read_waits (socket_ s)) ->
  steps_within (calm BAD_BEHAVIOR_LIMIT) m.
Proof.
  intros Hcore Hwaits s HI. split.
  - eapply session_invariant_core; [apply Hcore|exact HI].
  - destruct (Hcore s) as (_ & _ & He & Hs & _).
    unfold reads_due, can_run. rewrite Hwaits, He, Hs. lia.
Qed.

Lemma Close_calm state : steps_within (calm BAD_BEHAVIOR_LIMIT) (Close state).
Proof.
  intros s HI. split; [now apply session_invariant_Close|].
  destruct (closed_ s) eqn:Hc.
  - rewrite Close_closed by assumption. cbn. lia.
  - rewrite Close_not_closed by assumption.
    unfold reads_due, can_run. cbn.
    destruct (state_ s), state; cbn; lia.
Qed.

Lemma SetMessageHandler_calm handler :
  steps_within (calm BAD_BEHAVIOR_LIMIT) (SetMessageHandler handler).
Proof. apply quiet_calm; [apply SetMessageHandler_core|reflexivity]. Qed.

Lemma log_delivered_calm data :
  steps_within (calm BAD_BEHAVIOR_LIMIT) (modify (log_delivered data)).
Proof. apply quiet_calm; [apply log_delivered_core|reflexivity]. Qed.

Lemma SendMessage_to_socket_calm message :
  steps_within (calm BAD_BEHAVIOR_LIMIT) (SendMessage_to_socket message).
Proof.
  apply quiet_calm; [apply SendMessage_to_socket_core|].
  intros s. unfold SendMessage_to_socket. monad_unfold.
  destruct (is_open (socket_ s)); cbn [negb]; [|reflexivity].
  destruct (write_results (socket_ s)) as [|[ec|] rest]; reflexivity.
Qed.

#[local] Hint Resolve Close_calm SetMessageHandler_calm log_delivered_calm
  SendMessage_to_socket_calm : within.

Lemma on_system_error_calm {A} (a : A) x k :
  on_system_error a x = Some k -> steps_within (calm BAD_BEHAVIOR_LIMIT) k.
Proof.
  destruct x as [| | |ec]; try discriminate.
  cbn. intros [= <-]. destruct (is_disconnect ec); within.
Qed.

Lemma send_message_calm message :
  steps_within (calm BAD_BEHAVIOR_LIMIT) (send_message message).
Proof.
  unfold send_message.
  apply within_try_catch;
    [typeclasses eauto|within|apply on_system_error_calm].
Qed.

#[local] Hint Resolve send_message_calm : within.

Lemma SendMessage_calm message :
  steps_within (calm BAD_BEHAVIOR_LIMIT) (SendMessage message).
Proof. unfold SendMessage. within. Qed.

Lemma Close_waits state : steps_within waits_kept (Close state).
Proof.
  intros s. destruct (closed_ s) eqn:Hc;
    now rewrite ?Close_closed, ?Close_not_closed by exact Hc.
Qed.

#[local] Hint Resolve Close_waits : within.

Lemma send_message_waits message :
  steps_within waits_kept (send_message message).
Proof.
  unfold send_message. apply within_try_catch; [typeclasses eauto| |].
  - intros s. unfold SendMessage_to_socket. monad_unfold.
    destruct (is_open (socket_ s)); cbn [negb]; [|reflexivity].
    destruct (write_results (socket_ s)) as [|[ec|] rest]; reflexivity.
  - intros [| | |ec] k; try discriminate.
    cbn. intros [= <-]. destruct (is_disconnect ec); within.
Qed.

(** [Run] awaits the read that was its to await, and no other. *)
Lemma Run_calm handler : steps_within (calm BAD_BEHAVIOR_LIMIT) (Run handler).
Proof.
  intros s HI. split.
  { now apply (proj1 (proj2 invariant_keeps_perform_parts)). }
  unfold Run, Run_until_sent, SetMessageHandler, start_reading.
  unfold bind at 1 2, get.
  destruct (state_ s) eqn:Hs; try (cbn; lia).
  unfold bind at 1 2 3, modify, deref_speke. session_simpl.
  destruct (speke_ s) as [e|] eqn:He;
    [|unfold reads_due, can_run; cbn; rewrite Hs, ?He; lia].
  pose proof (well_formed_live s e (proj1 HI) He) as Hc.
  assert (Ho : is_open (socket_ s) = true).
  { destruct HI as [(Ho & _) _]. rewrite Hc in Ho.
    now destruct (is_open (socket_ s)). }
  set (s1 := mkSession _ _ _ _ _ _ _).
  pose proof (send_message_open (InitData (GetId e) (GetPublicKey e)) s1 Ho)
    as Hret.
  assert (HI1 : session_invariant BAD_BEHAVIOR_LIMIT s1).
  { apply (session_invariant_core _ s s1); [|exact HI].
    repeat split. cbn. now rewrite He. }
  pose proof (send_message_waits (InitData (GetId e) (GetPublicKey e)) s1)
    as Hdue.
  destruct (send_message _ s1) as [[[]|x|f] s2]; cbn in Hret;
    try discriminate.
  unfold waits_kept in Hdue. cbn [snd] in *.
  unfold reads_due, can_run. subst s1. cbn in *.
  rewrite Hs, He. lia.
Qed.

#[local] Hint Resolve SendMessage_calm Run_calm : within.

Lemma caught_calm {A} (m : M A) :
  steps_within (calm BAD_BEHAVIOR_LIMIT) m ->
  steps_within (calm BAD_BEHAVIOR_LIMIT)
    (try_catch (m ;; ret None) (fun x => Some (ret (Some x)))).
Proof.
  intros Hm. apply within_try_catch; [typeclasses eauto|within|].
  intros x k [= <-]. within.
Qed.

Lemma run_handler_calm prog :
  steps_within (calm BAD_BEHAVIOR_LIMIT) (run_handler prog).
Proof.
  induction prog as [|x|k IH|message k IH|state k IH|handler _ k IH
                     |handler _ k IH]; cbn [run_handler]; unfold GetState;
    within; apply caught_calm; within.
Qed.

Lemma handle_message_calm data :
  steps_within (calm BAD_BEHAVIOR_LIMIT) (handle_message data).
Proof. pose proof run_handler_calm. unfold handle_message. within. Qed.

Lemma receive_message_calm rx :
  steps_within (calm BAD_BEHAVIOR_LIMIT) (receive_message rx).
Proof.
  unfold receive_message.
  apply within_try_catch;
    [typeclasses eauto| |apply on_system_error_calm].
  unfold ReceiveMessage. within.
Qed.

Lemma provide_remote_pair_calm pubkey id :
  steps_within (calm BAD_BEHAVIOR_LIMIT) (provide_remote_pair pubkey id).
Proof.
  intros s HI. split.
  { now apply (proj2 (proj2 invariant_keeps_perform_parts)). }
  unfold provide_remote_pair, bind at 1, deref_speke.
  destruct (speke_ s) as [e|] eqn:He; [|cbn; lia].
  destruct (ProvideRemotePublicKeyIdPair pubkey id e) as [failure e'].
  unfold bind, modify.
  assert (Hdue : reads_due (set_speke (Some e') s) = reads_due s).
  { unfold reads_due, can_run. cbn. now rewrite He. }
  destruct failure; cbn -[reads_due]; lia.
Qed.

Lemma send_key_confirmation_calm :
  steps_within (calm BAD_BEHAVIOR_LIMIT) send_key_confirmation.
Proof. unfold send_key_confirmation. within. Qed.

#[local] Hint Resolve handle_message_calm receive_message_calm
  provide_remote_pair_calm send_key_confirmation_calm : within.

Lemma increase_bad_behavior_count_calm s e :
  speke_ s = Some e ->
  calm BAD_BEHAVIOR_LIMIT s
    (snd (increase_bad_behavior_count BAD_BEHAVIOR_LIMIT s)).
Proof.
  intros He HI. split; [now apply (session_invariant_increase _ s e)|].
  unfold increase_bad_behavior_count, bind, get, modify, ret.
  destruct (BAD_BEHAVIOR_LIMIT <=? S (bad_behavior_count_ s))%nat;
    [|unfold reads_due, can_run; cbn; reflexivity].
  destruct (closed_ s) eqn:Hc.
  - rewrite Close_closed by (cbn; exact Hc).
    unfold reads_due, can_run. cbn. reflexivity.
  - rewrite Close_not_closed by (cbn; exact Hc).
    unfold reads_due, can_run. cbn. destruct (state_ s); cbn; lia.
Qed.

Lemma dispatch_calm message :
  steps_within (calm BAD_BEHAVIOR_LIMIT)
    (dispatch BAD_BEHAVIOR_LIMIT message).
Proof.
  unfold dispatch. destruct message as [|id pubkey|kcd|hmac data]; cbn.
  - within.
  - apply within_try_catch; [typeclasses eauto|within|].
    intros x k. destruct (is_logic_error x); [intros [= <-]; within|].
    destruct (is_runtime_error x); [intros [= <-]; within|discriminate].
  - within.
  - intros s. unfold bind at 1, deref_speke.
    destruct (speke_ s) as [e|] eqn:He; [|reflexivity].
    unfold bind at 1, lift_engine.
    destruct (ConfirmHmacSignature hmac data e) as [err|[|]];
      [reflexivity| |].
    + assert (Hm : steps_within (calm BAD_BEHAVIOR_LIMIT)
                     (handle_message data ;; ret true)) by within.
      exact (Hm s).
    + unfold bind, ret.
      pose proof (increase_bad_behavior_count_calm s e He) as Hc.
      destruct (increase_bad_behavior_count BAD_BEHAVIOR_LIMIT s)
        as [[[]|x|f] s']; exact Hc.
Qed.

Lemma calm_one_more s s' :
  calm BAD_BEHAVIOR_LIMIT s s' -> one_more_read BAD_BEHAVIOR_LIMIT s s'.
Proof. intros Hc HI. destruct (Hc HI). split; [assumption|lia]. Qed.

(** One call of [handle_read] awaits at most one more read. *)
Lemma handle_read_one_more ec rx s :
  one_more_read BAD_BEHAVIOR_LIMIT s
    (snd (handle_read BAD_BEHAVIOR_LIMIT ec rx s)).
Proof.
  unfold handle_read. destruct ec as [ec|].
  { apply calm_one_more, Close_calm. }
  intros HI.
  match goal with
  | |- _ (snd ?t) /\ _ => remember (snd t) as out eqn:Hout
  end.
  unfold bind at 1 in Hout.
  destruct (receive_message_calm rx s HI) as [HI1 Hd1].
  destruct (receive_message rx s) as [[[message|]|x|f] s1]; cbn [snd] in *;
    try (subst out; split; [assumption|lia]).
  - unfold bind in Hout.
    destruct (dispatch_calm message s1 HI1) as [HI2 Hd2].
    destruct (dispatch BAD_BEHAVIOR_LIMIT message s1)
      as [[[|]|x|f] s2]; cbn [snd] in *; subst out;
      try (cbn -[reads_due session_invariant]; split; [assumption|lia]).
    split.
    + apply (session_invariant_core _ s2); [|exact HI2]. repeat split.
    + unfold reads_due, can_run in *. cbn. lia.
  - destruct (Close_calm STOPPED_ERROR s1 HI1) as [HI2 Hd2].
    subst out. split; [assumption|lia].
Qed.

Lemma perform_reads_due op s :
  session_invariant BAD_BEHAVIOR_LIMIT s ->
  session_invariant BAD_BEHAVIOR_LIMIT (snd (perform BAD_BEHAVIOR_LIMIT op s))
  /\ (reads_due (snd (perform BAD_BEHAVIOR_LIMIT op s))
      <= reads_due s + count_reads [op])%nat.
Proof.
  intros HI. destruct op as [state|ec rx|message|handler|handler];
    cbn [perform count_reads].
  - destruct (Close_calm state s HI). split; [assumption|lia].
  - destruct (handle_read_one_more ec rx s HI). split; [assumption|lia].
  - destruct (SendMessage_calm message s HI). split; [assumption|lia].
  - destruct (SetMessageHandler_calm handler s HI). split; [assumption|lia].
  - destruct (Run_calm handler s HI). split; [assumption|lia].
Qed.

Lemma count_reads_cons op ops :
  count_reads (op :: ops) = (count_reads [op] + count_reads ops)%nat.
Proof. destruct op; reflexivity. Qed.

Lemma perform_all_reads_due ops s :
  session_invariant BAD_BEHAVIOR_LIMIT s ->
  (reads_due (perform_all BAD_BEHAVIOR_LIMIT ops s)
   <= reads_due s + count_reads ops)%nat.
Proof.
  revert s. induction ops as [|op ops IH]; intros s HI; [cbn; lia|].
  rewrite count_reads_cons. cbn [perform_all].
  destruct (perform_reads_due op s HI) as [HI' Hd].
  specialize (IH _ HI'). lia.
Qed.

(** X14. Reads are awaited one at a time: on a session as constructed
    and after any run of operations on it, the reads the session has
    awaited are at most one more than the waits whose completion it has
    handled, so that while every handled completion answers an awaited
    read, at most one read is outstanding. *)
Theorem reads_awaited_one_at_a_time
    (socket : Socket) (speke : option SPEKE) (s0 : SpekeSession)
    (ops : list operation) :
  SpekeSession_new socket speke = Returned s0 ->
  (read_waits (socket_ (perform_all BAD_BEHAVIOR_LIMIT ops s0))
   <= read_waits socket + 1 + count_reads ops)%nat.
Proof.
  intros Hnew.
  pose proof (session_invariant_reachable BAD_BEHAVIOR_LIMIT socket speke s0
                [] Hnew) as HI.
  cbn [perform_all] in HI.
  pose proof (perform_all_reads_due ops s0 HI) as Hd.
  unfold SpekeSession_new in Hnew.
  destruct (is_open socket); cbn [negb] in Hnew; [|discriminate].
  destruct speke as [e|]; [|discriminate]. injection Hnew as <-.
  unfold reads_due in Hd at 2. cbn in Hd.
  unfold reads_due in Hd. lia.
Qed.

End Sequential.

Lemma reads_awaited_one_at_a_time_witness :
  SpekeSession_new demo_socket (Some demo_alice) = Returned demo_fresh /\
  (read_waits
     (socket_ (perform_all (H := demo_primitives) demo_limit
                 [OpRun demo_echo;
                  OpHandleRead None (ReadBody true (InitData "bob-1" [x09]));
                  OpHandleRead None (ReadBody true NotSet)]
                 demo_fresh))
   <= 0 + 1 + 2)%nat.
Proof.
  split; [reflexivity|].
  exact (reads_awaited_one_at_a_time (H := demo_primitives) demo_limit
           demo_socket (Some demo_alice) demo_fresh
           [OpRun demo_echo;
            OpHandleRead None (ReadBody true (InitData "bob-1" [x09]));
            OpHandleRead None (ReadBody true NotSet)] eq_refl).
Defined.
